(** * MADlib: logistic regression aggregates and the Student-t distribution

    A shallow embedding of [src/modules/prob/student.cpp] and
    [src/modules/regress/logistic.cpp].

    Conventions.
    - A C++ [double] is an exact real number of [R]; the one place where the
      code produces a value that is not a number ([return NAN]) is kept apart
      by the type [double] below.  Division is Rocq's total division.
    - [int64_t], [int] and the unsigned counters that the state classes read
      out of the storage array are integers ([Z], [N]); where the code stays
      far from the ends of the machine range this is said at the definition.
    - A C++ [throw] is the constructor [Throw] of [result]. *)

From Stdlib Require Import Reals Lra Lia ZArith NArith List String Bool.
From Equations Require Import Equations.
Import ListNotations.

Open Scope R_scope.

(** ** Exceptions and results *)

Inductive exn : Type :=
| logic_error (what : string)
| domain_error (what : string)
| runtime_error (what : string).

Inductive result (A : Type) : Type :=
| Ok (a : A)
| Throw (e : exn).
Arguments Ok {A} a.
Arguments Throw {A} e.

Definition bind {A B : Type} (r : result A) (k : A -> result B) : result B :=
  match r with
  | Ok a => k a
  | Throw e => Throw e
  end.

Notation "x <- r ;; k" := (bind r (fun x => k))
  (at level 61, r at next level, right associativity).

(** A [double] returned by the distribution function: a real number or the
    C macro [NAN]. *)
Inductive double : Type :=
| NAN
| Num (r : R).

(** * prob/student.cpp *)

Module Student.

(** [for (int j = 2; j <= bound; j += 2) { body }] on the two doubles
    [prod] and [sum] that both series loops update.  The counter stays below
    200, far from the range of [int]. *)
Equations? for_j (bound : Z) (body : Z -> R * R -> R * R)
    (j : Z) (st : R * R) : R * R by wf (Z.to_nat (bound + 2 - j)) lt :=
  for_j bound body j st with Z_le_dec j bound => {
    | left _ := for_j bound body (j + 2)%Z (body j st);
    | right _ := st }.
Proof. lia. Qed.

(** Body of the loop for odd [nu > 1]. *)
Definition odd_body (z : R) (j : Z) (st : R * R) : R * R :=
  let prod := fst st * IZR j / (IZR (j + 1) * z) in
  (prod, snd st + prod).

(** Body of the loop for even [nu]. *)
Definition even_body (z : R) (j : Z) (st : R * R) : R * R :=
  let prod := fst st * IZR (j - 1) / (IZR j * z) in
  (prod, snd st + prod).

(** The value [A] of [A(t|nu)] before it is clamped: the three branches of
    the main case, [1 <= nu < 200]. *)
Definition series_A (nu : Z) (t : R) : R :=
  let z := 1 + t * t / IZR nu in
  let t_by_sqrt_nu := Rabs t / sqrt (IZR nu) in
  if (nu =? 1)%Z then
    2 / PI * atan t_by_sqrt_nu
  else if negb (Z.land nu 1 =? 0)%Z then
    let sum := snd (for_j (nu - 3) (odd_body z) 2 (1, 1)) in
    2 / PI * (atan t_by_sqrt_nu + t_by_sqrt_nu / z * sum)
  else
    let sum := snd (for_j (nu - 2) (even_body z) 2 (1, 1)) in
    t_by_sqrt_nu / sqrt z * sum.

(** [if (A > 1.) A = 1.; else if (A < 0.) A = 0.;] *)
Definition clamp (A : R) : R :=
  if Rlt_dec 1 A then 1 else if Rlt_dec A 0 then 0 else A.

Section WithErf.

(** [boost::math::erf], the error function of the Boost library. *)
Variable erf : R -> R.

Definition normal_cdf (t : R) : R :=
  0.5 + 0.5 * erf (t / sqrt 2).

(** Only called with [200 <= nu < 1000000], where [(nu - 1) * (nu - 1)] is
    below [2^40] and the 64-bit product is the integer product. *)
Definition studentT_cdf_approx (nu : Z) (t : R) : R :=
  let g := (IZR nu - 1.5) / IZR ((nu - 1) * (nu - 1)) in
  let z := sqrt (ln (1 + t * t / IZR nu) / g) in
  let z := if Rlt_dec t 0 then z * -1 else z in
  normal_cdf z.

Definition studentT_cdf (nu : Z) (t : R) : double :=
  if (nu <=? 0)%Z then NAN
  else if (nu >=? 1000000)%Z then Num (normal_cdf t)
  else if (nu >=? 200)%Z then Num (studentT_cdf_approx nu t)
  else
    let A := clamp (series_A nu t) in
    if Rlt_dec t 0 then Num (0.5 * (1 - A))
    else Num (1 - 0.5 * (1 - A)).

(** The in-database function: [nu] and [t] are the two SQL arguments. *)
Definition student_t_cdf (nu : Z) (t : R) : result double :=
  if (nu <=? 0)%Z then
    Throw (domain_error
      "Student-t distribution undefined for degree of freedom <= 0")
  else Ok (studentT_cdf nu t).

End WithErf.

End Student.

(** * regress/logistic.cpp *)

(** ** Armadillo vectors and matrices

    A [DoubleCol] or [DoubleRow] is the list of its elements, a [DoubleMat]
    the list of its rows.  Every vector and matrix of one state object is a
    view of [widthOfX] elements (or [widthOfX] rows of [widthOfX] elements),
    so the element-wise operations below always meet operands of one shape
    there; on lists they are defined position by position. *)

Definition vec := list R.
Definition mat := list (list R).

Fixpoint zip_with {A B C : Type} (f : A -> B -> C)
    (u : list A) (v : list B) : list C :=
  match u, v with
  | a :: u', b :: v' => f a b :: zip_with f u' v'
  | _, _ => []
  end.

Definition zeros (n : N) : vec := repeat 0 (N.to_nat n).
Definition vadd (u v : vec) : vec := zip_with Rplus u v.
Definition vsub (u v : vec) : vec := zip_with Rminus u v.
Definition scal (a : R) (v : vec) : vec := map (Rmult a) v.
Definition dot (u v : vec) : R := fold_right Rplus 0 (zip_with Rmult u v).

Definition mzeros (n : N) : mat := repeat (zeros n) (N.to_nat n).
Definition madd (P Q : mat) : mat := zip_with vadd P Q.
Definition mat_vec (P : mat) (v : vec) : vec := map (fun row => dot row v) P.
(** [trans(x) * a * x]: element [(i, j)] is [(x_i * a) * x_j]. *)
Definition outer (x : vec) (a : R) : mat :=
  map (fun xi => map (fun xj => xi * a * xj) x) x.

(** Logistic function, on the real numbers: strictly between 0 and 1, where
    the [double] value of the code rounds to 0 or 1 for large arguments. *)
Definition sigma (x : R) : R := 1 / (1 + exp (- x)).

(** [double y = *arg++ ? 1. : -1.;]  The label is the truth value that the
    condition of [?:] reads from the second argument.  How the class of the
    argument ([AnyValue]) converts a value that is not a boolean is outside
    this file. *)
Definition label_sign (label : bool) : R :=
  if label then 1 else -1.

Definition incompatible : exn :=
  logic_error "Internal error: Incompatible transition states".

(** ** Conjugate-gradient method *)

Module CG.

(** The state object: [mStorage_size] is [mStorage.size()], the other fields
    are the public members, each holding the value that the member reads out
    of (and writes into) its place in the storage array.  The three counters
    are kept in cells of type [double] and read as unsigned integers; they are
    the natural numbers held there. *)
Record State : Type := mkState {
  mStorage_size : N;
  (* inter-iteration components *)
  iteration : N;
  widthOfX : N;
  coef : vec;
  dir : vec;
  grad : vec;
  beta : R;
  (* intra-iteration components *)
  numRows : N;
  gradNew : vec;
  dTHd : R;
  logLikelihood : R
}.

Definition arraySize (inWidthOfX : N) : N := 6 + 4 * inWidthOfX.

(** Reset the intra-iteration fields. *)
Definition reset (s : State) : State :=
  {| mStorage_size := mStorage_size s;
     iteration := iteration s;
     widthOfX := widthOfX s;
     coef := coef s;
     dir := dir s;
     grad := grad s;
     beta := beta s;
     numRows := 0;
     gradNew := zeros (widthOfX s);
     dTHd := 0;
     logLikelihood := 0 |}.

(** [initialize]: a fresh storage array of [arraySize(inWidthOfX)] cells. *)
Definition initialize (inWidthOfX : N) : State :=
  reset
    {| mStorage_size := arraySize inWidthOfX;
       iteration := 0;
       widthOfX := inWidthOfX;
       coef := zeros inWidthOfX;
       dir := zeros inWidthOfX;
       grad := zeros inWidthOfX;
       beta := 0;
       numRows := 0;
       gradNew := zeros inWidthOfX;
       dTHd := 0;
       logLikelihood := 0 |}.

(** [operator+=]: merge with another state by adding the intra-iteration
    fields. *)
Definition plus_assign (this inOtherState : State) : result State :=
  if negb (mStorage_size this =? mStorage_size inOtherState)%N
     || negb (widthOfX this =? widthOfX inOtherState)%N
  then Throw incompatible
  else Ok
    {| mStorage_size := mStorage_size this;
       iteration := iteration this;
       widthOfX := widthOfX this;
       coef := coef this;
       dir := dir this;
       grad := grad this;
       beta := beta this;
       numRows := numRows this + numRows inOtherState;
       gradNew := vadd (gradNew this) (gradNew inOtherState);
       dTHd := dTHd this + dTHd inOtherState;
       logLikelihood := logLikelihood this + logLikelihood inOtherState |}.

(** The first lines of [transition]: on the first row the state is
    initialized for [x.n_elem] coefficients (the argument of [initialize] is a
    [uint16_t]) and, if a previous state is passed, overwritten by it and
    reset.  The assignment copies the storage array of the previous state
    into the array just initialized, which takes arrays of one size: this
    definition stands for the code where the previous state has the width of
    the row ([cg_seed_for] below), the only case a pass meets. *)
Definition first_row (state : State) (x : vec) (previous : option State)
    : State :=
  if (numRows state =? 0)%N then
    let state := initialize (N.of_nat (List.length x) mod 65536) in
    match previous with
    | Some previousState => reset previousState
    | None => state
    end
  else state.

(** The transition step proper, from [state.numRows++] on. *)
Definition accumulate (state : State) (y : R) (x : vec) : State :=
  let xc := dot x (coef state) in
  let xd := dot x (dir state) in
  let even := (iteration state mod 2 =? 0)%N in
  {| mStorage_size := mStorage_size state;
     iteration := iteration state;
     widthOfX := widthOfX state;
     coef := coef state;
     dir := dir state;
     grad := grad state;
     beta := beta state;
     numRows := numRows state + 1;
     gradNew :=
       if even then vadd (gradNew state) (scal (sigma (- y * xc) * y) x)
       else gradNew state;
     dTHd :=
       if even then dTHd state
       else dTHd state - sigma xc * sigma (- xc) * xd * xd;
     logLikelihood := logLikelihood state - ln (1 + exp (- y * xc)) |}.

(** Perform the logistic-regression transition step.  The arguments of the
    SQL call are the state, the label, the row and the (nullable) previous
    state. *)
Definition transition (state : State) (label : bool) (x : vec)
    (previous : option State) : State :=
  let y := label_sign label in
  accumulate (first_row state x previous) y x.

(** Perform the preliminary aggregation function: merge transition states. *)
Definition mergeStates (stateLeft stateRight : State) : result State :=
  if (numRows stateLeft =? 0)%N then Ok stateRight
  else if (numRows stateRight =? 0)%N then Ok stateLeft
  else plus_assign stateLeft stateRight.

(** Perform the logistic-regression final step.  The two quotients are
    those of the real numbers: they stand for what the code computes where
    the denominator is not zero.  At a zero denominator the code stores an
    infinity or a NaN, which [R] does not have; what is proved about the
    quotients carries the hypothesis that the denominator is not zero. *)
Definition final (state : State) : State :=
  if (iteration state =? 0)%N then
    {| mStorage_size := mStorage_size state;
       iteration := iteration state + 1;
       widthOfX := widthOfX state;
       coef := coef state;
       dir := gradNew state;
       grad := gradNew state;
       beta := beta state;
       numRows := numRows state;
       gradNew := gradNew state;
       dTHd := dTHd state;
       logLikelihood := logLikelihood state |}
  else if (iteration state mod 2 =? 0)%N then
    let gradNewMinusGrad := vsub (gradNew state) (grad state) in
    let beta' := dot (gradNew state) gradNewMinusGrad
                 / dot (dir state) gradNewMinusGrad in
    {| mStorage_size := mStorage_size state;
       iteration := iteration state + 1;
       widthOfX := widthOfX state;
       coef := coef state;
       dir := vsub (gradNew state) (scal beta' (dir state));
       grad := gradNew state;
       beta := beta';
       numRows := numRows state;
       gradNew := gradNew state;
       dTHd := dTHd state;
       logLikelihood := logLikelihood state |}
  else
    {| mStorage_size := mStorage_size state;
       iteration := iteration state + 1;
       widthOfX := widthOfX state;
       coef := vsub (coef state)
                 (scal (dot (grad state) (dir state) / dTHd state) (dir state));
       dir := dir state;
       grad := grad state;
       beta := beta state;
       numRows := numRows state;
       gradNew := gradNew state;
       dTHd := dTHd state;
       logLikelihood := logLikelihood state |}.

(** Return the difference in log-likelihood between two states. *)
Definition distance (stateLeft stateRight : State) : R :=
  Rabs (logLikelihood stateLeft - logLikelihood stateRight).

End CG.

(** ** Iteratively-reweighted-least-squares method *)

Module IRLS.

Record State : Type := mkState {
  mStorage_size : N;
  (* inter-iteration components *)
  widthOfX : N;
  coef : vec;
  (* intra-iteration components *)
  numRows : N;
  X_transp_Az : vec;
  X_transp_AX : mat;
  logLikelihood : R
}.

(** The value of the expression.  The code evaluates it in [int]: for widths
    up to 46339 that is this value, above it the [int] arithmetic
    overflows. *)
Definition arraySize (inWidthOfX : N) : N :=
  3 + inWidthOfX * inWidthOfX + 2 * inWidthOfX.

(** Reset the intra-iteration fields. *)
Definition reset (s : State) : State :=
  {| mStorage_size := mStorage_size s;
     widthOfX := widthOfX s;
     coef := coef s;
     numRows := 0;
     X_transp_Az := zeros (widthOfX s);
     X_transp_AX := mzeros (widthOfX s);
     logLikelihood := 0 |}.

Definition initialize (inWidthOfX : N) : State :=
  reset
    {| mStorage_size := arraySize inWidthOfX;
       widthOfX := inWidthOfX;
       coef := zeros inWidthOfX;
       numRows := 0;
       X_transp_Az := zeros inWidthOfX;
       X_transp_AX := mzeros inWidthOfX;
       logLikelihood := 0 |}.

(** [operator+=] *)
Definition plus_assign (this inOtherState : State) : result State :=
  if negb (mStorage_size this =? mStorage_size inOtherState)%N
     || negb (widthOfX this =? widthOfX inOtherState)%N
  then Throw incompatible
  else Ok
    {| mStorage_size := mStorage_size this;
       widthOfX := widthOfX this;
       coef := coef this;
       numRows := numRows this + numRows inOtherState;
       X_transp_Az := vadd (X_transp_Az this) (X_transp_Az inOtherState);
       X_transp_AX := madd (X_transp_AX this) (X_transp_AX inOtherState);
       logLikelihood := logLikelihood this + logLikelihood inOtherState |}.

(** The first lines of [transition], as for the first method: with a
    previous state the definition stands for the code where that state has
    the width of the row ([irls_seed_for] below). *)
Definition first_row (state : State) (x : vec) (previous : option State)
    : State :=
  if (numRows state =? 0)%N then
    let state := initialize (N.of_nat (List.length x) mod 65536) in
    match previous with
    | Some previousState => reset previousState
    | None => state
    end
  else state.

(** The transition step proper, from [state.numRows++] on. *)
Definition accumulate (state : State) (y : R) (x : vec) : State :=
  let xc := dot x (coef state) in
  let a := sigma xc * sigma (- xc) in
  let z := xc + sigma (- y * xc) * y / a in
  {| mStorage_size := mStorage_size state;
     widthOfX := widthOfX state;
     coef := coef state;
     numRows := numRows state + 1;
     X_transp_Az := vadd (X_transp_Az state) (map (fun xi => xi * a * z) x);
     X_transp_AX := madd (X_transp_AX state) (outer x a);
     logLikelihood := logLikelihood state - ln (1 + exp (- y * xc)) |}.

Definition transition (state : State) (label : bool) (x : vec)
    (previous : option State) : State :=
  let y := label_sign label in
  accumulate (first_row state x previous) y x.

(** Perform the preliminary aggregation function: merge transition states. *)
Definition mergeStates (stateLeft stateRight : State) : result State :=
  if (numRows stateLeft =? 0)%N then Ok stateRight
  else if (numRows stateRight =? 0)%N then Ok stateLeft
  else plus_assign stateLeft stateRight.

Section WithPinv.

(** Armadillo's [pinv], the Moore-Penrose pseudo-inverse.  It returns a
    matrix or, as the comment in [final] says, throws. *)
Variable pinv : mat -> result mat.

(** Perform the logistic-regression final step:
    [state.coef = pinv(state.X_transp_AX) * state.X_transp_Az;] *)
Definition final (state : State) : result State :=
  P <- pinv (X_transp_AX state) ;;
  Ok {| mStorage_size := mStorage_size state;
        widthOfX := widthOfX state;
        coef := mat_vec P (X_transp_Az state);
        numRows := numRows state;
        X_transp_Az := X_transp_Az state;
        X_transp_AX := X_transp_AX state;
        logLikelihood := logLikelihood state |}.

End WithPinv.

Definition distance (stateLeft stateRight : State) : R :=
  Rabs (logLikelihood stateLeft - logLikelihood stateRight).

End IRLS.


(** * Predicates used in the statements *)

(** A square matrix is singular when it sends a vector that is not zero to
    zero. *)
Definition singular (M : mat) : Prop :=
  exists v : vec,
    List.length v = List.length M /\
    Exists (fun c => c <> 0) v /\
    mat_vec M v = zeros (N.of_nat (List.length M)).

Module CGInv.
Import CG.

(** Two states of one fit and one iteration: same storage size, same width,
    same inter-iteration fields. *)
Definition same_iteration (a b : State) : Prop :=
  mStorage_size a = mStorage_size b /\
  widthOfX a = widthOfX b /\
  iteration a = iteration b /\
  coef a = coef b /\
  dir a = dir b /\
  grad a = grad b /\
  beta a = beta b.

(** A state that has seen no row holds zeros in its intra-iteration fields,
    as [reset] leaves them. *)
Definition empty_without_rows (s : State) : Prop :=
  numRows s = 0%N ->
  gradNew s = zeros (widthOfX s) /\ dTHd s = 0 /\ logLikelihood s = 0.

(** The shape that the constructor of the class gives a state: a storage
    array of [arraySize(widthOfX)] cells and vectors of [widthOfX]
    elements. *)
Definition well_formed (s : State) : Prop :=
  mStorage_size s = arraySize (widthOfX s) /\
  List.length (coef s) = N.to_nat (widthOfX s) /\
  List.length (dir s) = N.to_nat (widthOfX s) /\
  List.length (grad s) = N.to_nat (widthOfX s) /\
  List.length (gradNew s) = N.to_nat (widthOfX s).

End CGInv.

Module IRLSInv.
Import IRLS.

Definition same_iteration (a b : State) : Prop :=
  mStorage_size a = mStorage_size b /\
  widthOfX a = widthOfX b /\
  coef a = coef b.

Definition empty_without_rows (s : State) : Prop :=
  numRows s = 0%N ->
  X_transp_Az s = zeros (widthOfX s) /\
  X_transp_AX s = mzeros (widthOfX s) /\
  logLikelihood s = 0.

End IRLSInv.

(** * Concrete inputs *)

Module Samples.

(** A function with the two properties of the error function that the
    theorems on the distribution function rely on: it is odd and its values
    lie between -1 and 1. *)
Definition erf_like (x : R) : R := x / (1 + Rabs x).

(** The pseudo-inverse on 1 x 1 matrices: [1/a] for [a <> 0] and [0] for
    [a = 0] (which is what Rocq's [/ 0] is).  Other shapes are not needed. *)
Definition scalar_pinv (M : mat) : result mat :=
  match M with
  | [[a]] => Ok [[/ a]]
  | _ => Throw (runtime_error "pinv(): not a 1 x 1 matrix")
  end.

(** The state after the first row [x = (1)] with a true label. *)
Definition cg_one_row : CG.State :=
  CG.transition (CG.initialize 0) true [1] None.

Definition cg_odd : CG.State :=
  CG.mkState 10 1 1 [1] [2] [3] 0 4 [0] (-6) (-1).

(** States with rows, for one coefficient. *)
Definition cg_rows_a : CG.State :=
  CG.mkState 10 0 1 [0] [0] [0] 0 2 [1] 0 (-1).
Definition cg_rows_b : CG.State :=
  CG.mkState 10 0 1 [0] [0] [0] 0 3 [2] 0 (-2).
Definition cg_rows_c : CG.State :=
  CG.mkState 10 0 1 [0] [0] [0] 0 1 [4] 0 (-3).
(** The same rows in a state for two coefficients. *)
Definition cg_rows_wide : CG.State :=
  CG.mkState 14 0 2 [0; 0] [0; 0] [0; 0] 0 3 [2; 2] 0 (-2).

Definition irls_rows_a : IRLS.State :=
  IRLS.mkState 6 1 [0] 2 [1] [[1]] (-1).
Definition irls_rows_b : IRLS.State :=
  IRLS.mkState 6 1 [0] 3 [2] [[2]] (-2).
Definition irls_rows_c : IRLS.State :=
  IRLS.mkState 6 1 [0] 1 [4] [[3]] (-3).
Definition irls_rows_wide : IRLS.State :=
  IRLS.mkState 11 2 [0; 0] 3 [2; 2] [[1; 0]; [0; 1]] (-2).

(** A state whose cross matrix is the singular matrix [(0)]. *)
Definition irls_singular : IRLS.State :=
  IRLS.mkState 6 1 [0] 2 [1] [[0]] (-1).

End Samples.

(** * The series as the header of [studentT_cdf] writes them *)

Module Documented.

(** [1 * 3 * ... * (2i - 1)] *)
Fixpoint odds (i : nat) : R :=
  match i with
  | O => 1
  | S k => odds k * (2 * INR (S k) - 1)
  end.

(** [2 * 4 * ... * (2i)] *)
Fixpoint evens (i : nat) : R :=
  match i with
  | O => 1
  | S k => evens k * (2 * INR (S k))
  end.

(** [3 * 5 * ... * (2i + 1)] *)
Fixpoint odds_from_3 (i : nat) : R :=
  match i with
  | O => 1
  | S k => odds_from_3 k * (2 * INR (S k) + 1)
  end.

(** The term of the sum for even [nu] and the term of the sum for odd
    [nu > 1]. *)
Definition even_term (z : R) (i : nat) : R := odds i / (evens i * z ^ i).
Definition odd_term (z : R) (i : nat) : R := evens i / (odds_from_3 i * z ^ i).

(** [A(t|nu)] for [nu > 1] and [t >= 0], with [z = 1 + t^2 / nu]: the
    formula for odd [nu > 1] and the formula for even [nu]. *)
Definition A (nu : Z) (t : R) : R :=
  let z := 1 + t * t / IZR nu in
  if Z.odd nu then
    2 / PI * (atan (t / sqrt (IZR nu))
              + t / (sqrt (IZR nu) * z)
                * sum_f_R0 (odd_term z) (Z.to_nat ((nu - 3) / 2)))
  else
    t / sqrt (IZR nu * z)
    * sum_f_R0 (even_term z) (Z.to_nat ((nu - 2) / 2)).

End Documented.

(** * The layout of the storage arrays *)

Module Layout.

(** The members of the two state classes in the order of the storage array,
    each with the index it is bound to by the constructor and the number of
    cells it spans. *)
Definition cg_members (widthOfX : N) : list (N * N) :=
  [ (0, 1);                      (* iteration *)
    (1, 1);                      (* widthOfX *)
    (2, widthOfX);               (* coef *)
    (2 + widthOfX, widthOfX);    (* dir *)
    (2 + 2 * widthOfX, widthOfX);  (* grad *)
    (2 + 3 * widthOfX, 1);       (* beta *)
    (3 + 3 * widthOfX, 1);       (* numRows *)
    (4 + 3 * widthOfX, widthOfX);  (* gradNew *)
    (4 + 4 * widthOfX, 1);       (* dTHd *)
    (5 + 4 * widthOfX, 1) ]%N.   (* logLikelihood *)

Definition irls_members (widthOfX : N) : list (N * N) :=
  [ (0, 1);                                  (* widthOfX *)
    (1, widthOfX);                           (* coef *)
    (1 + widthOfX, 1);                       (* numRows *)
    (2 + widthOfX, widthOfX);                (* X_transp_Az *)
    (2 + 2 * widthOfX, widthOfX * widthOfX); (* X_transp_AX *)
    (2 + widthOfX * widthOfX + 2 * widthOfX, 1) ]%N.  (* logLikelihood *)

(** The members lie one after the other from index [first] on and end just
    before index [last]. *)
Fixpoint consecutive (first : N) (members : list (N * N)) (last : N) : Prop :=
  match members with
  | [] => first = last
  | (index, cells) :: rest =>
      index = first /\ consecutive (first + cells)%N rest last
  end.

End Layout.

(** * One pass over the rows of a segment *)

Module Scan.

(** The aggregate calls the transition function once per row, in order, every
    call with the same previous state.  A row is a label and a vector. *)
Definition cg (previous : option CG.State) (rows : list (bool * vec))
    (state : CG.State) : CG.State :=
  fold_left (fun s row => CG.transition s (fst row) (snd row) previous)
    rows state.

Definition irls (previous : option IRLS.State) (rows : list (bool * vec))
    (state : IRLS.State) : IRLS.State :=
  fold_left (fun s row => IRLS.transition s (fst row) (snd row) previous)
    rows state.

(** All rows have [n] elements. *)
Definition rows_of_width (n : N) (rows : list (bool * vec)) : Prop :=
  Forall (fun row => List.length (snd row) = N.to_nat n) rows.

End Scan.

Module IRLSInv2.
Import IRLS.

(** The shape that the constructor of the class gives a state. *)
Definition well_formed (s : State) : Prop :=
  mStorage_size s = arraySize (widthOfX s) /\
  List.length (coef s) = N.to_nat (widthOfX s) /\
  List.length (X_transp_Az s) = N.to_nat (widthOfX s) /\
  List.length (X_transp_AX s) = N.to_nat (widthOfX s) /\
  Forall (fun row => List.length row = N.to_nat (widthOfX s))
    (X_transp_AX s).

(** Element [(i, j)] of a matrix. *)
Definition entry (M : mat) (i j : nat) : R := nth j (nth i M []) 0.

Definition symmetric (M : mat) : Prop :=
  forall i j, entry M i j = entry M j i.

End IRLSInv2.

(** The previous state handed to the first row fits rows of [n] elements: it
    is well formed for [n] coefficients; without a previous state [n] fits
    the [uint16_t] argument of [initialize]. *)
Definition cg_seed_for (n : N) (previous : option CG.State) : Prop :=
  match previous with
  | Some p => CGInv.well_formed p /\ CG.widthOfX p = n
  | None => (n < 65536)%N
  end.

Definition irls_seed_for (n : N) (previous : option IRLS.State) : Prop :=
  match previous with
  | Some p => IRLSInv2.well_formed p /\ IRLS.widthOfX p = n
  | None => (n < 65536)%N
  end.

(** ** More concrete inputs *)

Module Samples2.

Definition rows_a : list (bool * vec) := [(true, [1; 2]); (false, [3; 4])].
Definition rows_b : list (bool * vec) := [(false, [5; 6])].
Definition rows_c : list (bool * vec) := [(true, [5]); (false, [7])].

(** A well-formed state at iteration 2 for two coefficients. *)
Definition cg_even_wide : CG.State :=
  CG.mkState 14 2 2 [0; 0] [1; 0] [1; 1] 0 3 [2; 3] 0 (-1).

End Samples2.

(** * Properties of the Student-t distribution function *)

Module StudentFacts.
Import Student Samples.

Lemma clamp_range (A : R) : 0 <= clamp A <= 1.
Proof.
  unfold clamp.
  destruct (Rlt_dec 1 A); [lra |].
  destruct (Rlt_dec A 0); lra.
Qed.

(** [A] is a function of [|t|] and [t * t] only. *)
Lemma series_A_opp (nu : Z) (t : R) : series_A nu (- t) = series_A nu t.
Proof.
  unfold series_A.
  rewrite Rabs_Ropp.
  replace (- t * - t) with (t * t) by ring.
  reflexivity.
Qed.

Lemma series_A_0 (nu : Z) : series_A nu 0 = 0.
Proof.
  unfold series_A.
  rewrite Rabs_R0.
  replace (0 / sqrt (IZR nu)) with 0 by (unfold Rdiv; ring).
  rewrite atan_0.
  destruct (nu =? 1)%Z; [ring |].
  destruct (negb (Z.land nu 1 =? 0)%Z); cbv zeta; unfold Rdiv; ring.
Qed.

Lemma clamp_0 : clamp 0 = 0.
Proof.
  unfold clamp.
  destruct (Rlt_dec 1 0); [lra |].
  destruct (Rlt_dec 0 0); lra.
Qed.

Section WithErf.

Variable erf : R -> R.

Lemma normal_cdf_range :
  (forall x, -1 <= erf x <= 1) -> forall t, 0 <= normal_cdf erf t <= 1.
Proof.
  intros Hrange t. unfold normal_cdf.
  specialize (Hrange (t / sqrt 2)). lra.
Qed.

Lemma normal_cdf_opp :
  (forall x, erf (- x) = - erf x) ->
  forall t, normal_cdf erf (- t) = 1 - normal_cdf erf t.
Proof.
  intros Hodd t. unfold normal_cdf.
  replace (- t / sqrt 2) with (- (t / sqrt 2)) by (unfold Rdiv; ring).
  rewrite Hodd. lra.
Qed.

Lemma erf_odd_0 : (forall x, erf (- x) = - erf x) -> erf 0 = 0.
Proof.
  intros Hodd. specialize (Hodd 0). rewrite Ropp_0 in Hodd. lra.
Qed.

Lemma studentT_cdf_approx_opp :
  (forall x, erf (- x) = - erf x) ->
  forall nu t,
    studentT_cdf_approx erf nu (- t) = 1 - studentT_cdf_approx erf nu t.
Proof.
  intros Hodd nu t. unfold studentT_cdf_approx. cbv zeta.
  replace (- t * - t) with (t * t) by ring.
  set (z := sqrt _).
  destruct (Rlt_dec (- t) 0) as [Hneg | Hneg];
    destruct (Rlt_dec t 0) as [Hpos | Hpos].
  - lra.
  - replace (z * -1) with (- z) by ring.
    apply normal_cdf_opp, Hodd.
  - replace (z * -1) with (- z) by ring.
    rewrite normal_cdf_opp by exact Hodd. ring.
  - assert (Ht : t = 0) by lra.
    assert (Hz : z = 0).
    { subst z. rewrite Ht.
      replace (1 + 0 * 0 / IZR nu) with 1 by (unfold Rdiv; ring).
      rewrite ln_1.
      replace (0 / _) with 0 by (unfold Rdiv; ring).
      apply sqrt_0. }
    rewrite Hz. unfold normal_cdf.
    replace (0 / sqrt 2) with 0 by (unfold Rdiv; ring).
    rewrite (erf_odd_0 Hodd). lra.
Qed.

End WithErf.

Lemma erf_like_range (x : R) : -1 <= erf_like x <= 1.
Proof.
  unfold erf_like.
  assert (Hpos : 0 < 1 + Rabs x) by (pose proof (Rabs_pos x); lra).
  split.
  - apply Rmult_le_reg_r with (1 + Rabs x); [exact Hpos |].
    unfold Rdiv. rewrite Rmult_assoc, Rinv_l by lra.
    unfold Rabs. destruct (Rcase_abs x); lra.
  - apply Rmult_le_reg_r with (1 + Rabs x); [exact Hpos |].
    unfold Rdiv. rewrite Rmult_assoc, Rinv_l by lra.
    unfold Rabs. destruct (Rcase_abs x); lra.
Qed.

Lemma erf_like_odd (x : R) : erf_like (- x) = - erf_like x.
Proof.
  unfold erf_like. rewrite Rabs_Ropp. unfold Rdiv. ring.
Qed.

(** The loops run: for [nu = 4] the even series has the two terms
    [1 + 1 / (2 z)], for [nu = 5] the odd series has [1 + 2 / (3 z)]. *)
Example even_series_4 (z : R) :
  snd (for_j (4 - 2) (even_body z) 2 (1, 1)) = 1 + 1 * 1 / (2 * z).
Proof.
  simp for_j. cbn. simp for_j. cbn. reflexivity.
Qed.

Example odd_series_5 (z : R) :
  snd (for_j (5 - 3) (odd_body z) 2 (1, 1)) = 1 + 1 * 2 / (3 * z).
Proof.
  simp for_j. cbn. simp for_j. cbn. reflexivity.
Qed.

(** [studentT_cdf(1, 1.0)] is 0.75, since [atan 1 = PI / 4]. *)
Example studentT_cdf_1_1 (erf : R -> R) : studentT_cdf erf 1 1 = Num 0.75.
Proof.
  unfold studentT_cdf.
  change (1 <=? 0)%Z with false. change (1 >=? 1000000)%Z with false.
  change (1 >=? 200)%Z with false. cbv iota zeta.
  assert (HA : series_A 1 1 = 1 / 2).
  { unfold series_A. change (1 =? 1)%Z with true. cbv iota zeta.
    rewrite Rabs_R1, sqrt_1.
    replace (1 / 1) with 1 by field.
    rewrite atan_1. field. apply PI_neq0. }
  rewrite HA. unfold clamp.
  destruct (Rlt_dec 1 (1 / 2)); [lra |].
  destruct (Rlt_dec (1 / 2) 0); [lra |].
  destruct (Rlt_dec 1 0); [lra |].
  f_equal. lra.
Qed.

(** C8: for degrees of freedom [nu <= 0] the distribution function yields no
    probability: [studentT_cdf] returns [NAN] and the in-database function
    [student_t_cdf] throws a domain error.  For [nu >= 1] both return a number
    between 0 and 1 (the error function taking values between -1 and 1). *)
Theorem student_t_cdf_domain (erf : R -> R)
    (erf_range : forall x, -1 <= erf x <= 1) (nu : Z) (t : R) :
  ((nu <= 0)%Z ->
     studentT_cdf erf nu t = NAN /\
     exists what, student_t_cdf erf nu t = Throw (domain_error what)) /\
  ((1 <= nu)%Z ->
     exists p, studentT_cdf erf nu t = Num p /\
               student_t_cdf erf nu t = Ok (Num p) /\
               0 <= p <= 1).
Proof.
  split; intros Hnu.
  - unfold student_t_cdf, studentT_cdf.
    apply Z.leb_le in Hnu. rewrite Hnu.
    split; [reflexivity | eexists; reflexivity].
  - assert (Hpos : (nu <=? 0)%Z = false) by (apply Z.leb_gt; lia).
    unfold student_t_cdf, studentT_cdf. rewrite Hpos.
    destruct (nu >=? 1000000)%Z.
    { eexists; repeat split; apply normal_cdf_range, erf_range. }
    destruct (nu >=? 200)%Z.
    { eexists; repeat split; apply normal_cdf_range, erf_range. }
    cbv zeta.
    pose proof (clamp_range (series_A nu t)) as HA.
    destruct (Rlt_dec t 0); eexists; repeat split; lra.
Qed.

Lemma student_t_cdf_domain_witness :
  (studentT_cdf erf_like 0 1 = NAN /\
   exists what, student_t_cdf erf_like 0 1 = Throw (domain_error what)) /\
  (exists p, studentT_cdf erf_like 3 1 = Num p /\
             student_t_cdf erf_like 3 1 = Ok (Num p) /\
             0 <= p <= 1).
Proof.
  split.
  - apply (proj1 (student_t_cdf_domain erf_like erf_like_range 0 1)). lia.
  - apply (proj2 (student_t_cdf_domain erf_like erf_like_range 3 1)). lia.
Defined.

(** C9: over the reals, for every [nu >= 1] and every [t],
    [studentT_cdf(nu, -t) = 1 - studentT_cdf(nu, t)] (the error function
    being odd). *)
Theorem studentT_cdf_symmetry (erf : R -> R)
    (erf_odd : forall x, erf (- x) = - erf x) (nu : Z) (t : R) :
  (1 <= nu)%Z ->
  exists p, studentT_cdf erf nu t = Num p /\
            studentT_cdf erf nu (- t) = Num (1 - p).
Proof.
  intros Hnu.
  assert (Hpos : (nu <=? 0)%Z = false) by (apply Z.leb_gt; lia).
  unfold studentT_cdf. rewrite Hpos.
  destruct (nu >=? 1000000)%Z.
  { eexists; split; [reflexivity |].
    f_equal. apply normal_cdf_opp, erf_odd. }
  destruct (nu >=? 200)%Z.
  { eexists; split; [reflexivity |].
    f_equal. apply studentT_cdf_approx_opp, erf_odd. }
  cbv zeta. rewrite series_A_opp.
  destruct (Rlt_dec t 0) as [Ht | Ht];
    destruct (Rlt_dec (- t) 0) as [Ht' | Ht'].
  - lra.
  - eexists; split; [reflexivity |]. f_equal.
  - eexists; split; [reflexivity |]. f_equal. ring.
  - assert (H0 : t = 0) by lra. subst t.
    rewrite series_A_0, clamp_0.
    eexists; split; [reflexivity |]. f_equal. lra.
Qed.

Lemma studentT_cdf_symmetry_witness :
  exists p, studentT_cdf erf_like 5 2 = Num p /\
            studentT_cdf erf_like 5 (- 2) = Num (1 - p).
Proof.
  apply (studentT_cdf_symmetry erf_like erf_like_odd 5 2). lia.
Defined.

End StudentFacts.

(** * Shapes *)

Lemma zip_with_length {A B C : Type} (f : A -> B -> C) (u : list A)
    (v : list B) :
  List.length (zip_with f u v) = Nat.min (List.length u) (List.length v).
Proof.
  revert v. induction u as [| a u IH]; intros [| b v]; simpl; auto.
Qed.

Lemma zeros_length (n : N) : List.length (zeros n) = N.to_nat n.
Proof. apply repeat_length. Qed.

Lemma vadd_length (u v : vec) (n : nat) :
  List.length u = n -> List.length v = n -> List.length (vadd u v) = n.
Proof.
  intros Hu Hv. unfold vadd. rewrite zip_with_length, Hu, Hv. lia.
Qed.

Lemma vsub_length (u v : vec) (n : nat) :
  List.length u = n -> List.length v = n -> List.length (vsub u v) = n.
Proof.
  intros Hu Hv. unfold vsub. rewrite zip_with_length, Hu, Hv. lia.
Qed.

Lemma scal_length (a : R) (v : vec) : List.length (scal a v) = List.length v.
Proof. apply length_map. Qed.

(** * Properties of the conjugate-gradient aggregate *)

Module CGFacts.
Import CG Samples.

(** The operations keep the shape of the state. *)
Lemma initialize_well_formed (w : N) : CGInv.well_formed (initialize w).
Proof.
  unfold CGInv.well_formed, initialize, reset. cbn.
  rewrite !zeros_length. repeat split.
Qed.

Lemma reset_well_formed (s : State) :
  CGInv.well_formed s -> CGInv.well_formed (reset s).
Proof.
  unfold CGInv.well_formed, reset. cbn.
  intros (Hsize & Hcoef & Hdir & Hgrad & _).
  rewrite zeros_length. repeat split; assumption.
Qed.

Lemma accumulate_well_formed (s : State) (y : R) (x : vec) :
  CGInv.well_formed s -> List.length x = N.to_nat (widthOfX s) ->
  CGInv.well_formed (accumulate s y x).
Proof.
  unfold CGInv.well_formed, accumulate. cbn.
  intros (Hsize & Hcoef & Hdir & Hgrad & Hnew) Hx.
  repeat split; try assumption.
  destruct (iteration s mod 2 =? 0)%N; [| assumption].
  apply vadd_length; [assumption |]. now rewrite scal_length.
Qed.

Lemma final_well_formed (s : State) :
  CGInv.well_formed s -> CGInv.well_formed (final s).
Proof.
  unfold CGInv.well_formed, final.
  intros (Hsize & Hcoef & Hdir & Hgrad & Hnew).
  destruct (iteration s =? 0)%N; [| destruct (iteration s mod 2 =? 0)%N];
    cbn; repeat split; try assumption.
  - apply vsub_length; [assumption |]. now rewrite scal_length.
  - apply vsub_length; [assumption |]. now rewrite scal_length.
Qed.

(** The convergence metric on two finalized states is the difference of the
    log-likelihoods accumulated in the two passes. *)
Lemma distance_final (a b : State) :
  distance (final a) (final b) = Rabs (logLikelihood a - logLikelihood b).
Proof.
  unfold distance, final.
  destruct (iteration a =? 0)%N; [| destruct (iteration a mod 2 =? 0)%N];
    (destruct (iteration b =? 0)%N; [| destruct (iteration b mod 2 =? 0)%N]);
    reflexivity.
Qed.

(** The final step advances the iteration counter and keeps the width. *)
Lemma final_iteration (s : State) :
  iteration (final s) = (iteration s + 1)%N /\ widthOfX (final s) = widthOfX s.
Proof.
  unfold final.
  destruct (iteration s =? 0)%N; [| destruct (iteration s mod 2 =? 0)%N];
    split; reflexivity.
Qed.



(** The final step leaves the intra-iteration fields alone. *)
Lemma final_intra (s : State) :
  numRows (final s) = numRows s /\
  gradNew (final s) = gradNew s /\
  dTHd (final s) = dTHd s /\
  logLikelihood (final s) = logLikelihood s.
Proof.
  unfold final.
  destruct (iteration s =? 0)%N; [| destruct (iteration s mod 2 =? 0)%N];
    repeat split.
Qed.

(** C2, as stated, fails: the state returned by the final step after one row
    still counts that row. *)
Lemma final_does_not_reset :
  iteration (final cg_one_row) = (iteration cg_one_row + 1)%N /\
  numRows (final cg_one_row) = 1%N /\
  ~ (numRows (final cg_one_row) = 0%N /\
     gradNew (final cg_one_row) = zeros (widthOfX (final cg_one_row)) /\
     dTHd (final cg_one_row) = 0 /\
     logLikelihood (final cg_one_row) = 0).
Proof.
  split; [reflexivity |]. split; [reflexivity |].
  intros [Hrows _]. discriminate Hrows.
Qed.

(** C2, amended: the final step increments the iteration counter by one and
    returns the intra-iteration fields as it got them; they are set to zero
    by [reset] when the first row of the next pass takes the finalized state
    as its previous state. *)
Theorem final_then_first_row (s : State) :
  iteration (final s) = (iteration s + 1)%N /\
  numRows (final s) = numRows s /\
  gradNew (final s) = gradNew s /\
  dTHd (final s) = dTHd s /\
  logLikelihood (final s) = logLikelihood s /\
  forall (fresh : State) (x : vec),
    numRows fresh = 0%N ->
    let next := first_row fresh x (Some (final s)) in
    iteration next = (iteration s + 1)%N /\
    numRows next = 0%N /\
    gradNew next = zeros (widthOfX s) /\
    dTHd next = 0 /\
    logLikelihood next = 0.
Proof.
  destruct (final_intra s) as (Hrows & Hgrad & Hd & Hll).
  destruct (final_iteration s) as (Hiter & Hwidth).
  do 5 (split; [assumption |]).
  intros fresh x Hfresh next.
  assert (Hnext : next = reset (final s)).
  { subst next. unfold first_row. rewrite Hfresh. reflexivity. }
  rewrite Hnext. cbn [reset iteration numRows gradNew dTHd logLikelihood].
  rewrite Hwidth, Hiter. repeat split.
Qed.

Lemma final_then_first_row_witness :
  let next := first_row (initialize 0) [1] (Some (final cg_one_row)) in
  iteration next = (iteration cg_one_row + 1)%N /\
  numRows next = 0%N /\
  gradNew next = zeros (widthOfX cg_one_row) /\
  dTHd next = 0 /\
  logLikelihood next = 0.
Proof.
  pose proof (final_then_first_row cg_one_row) as (_ & _ & _ & _ & _ & H).
  apply (H (initialize 0) [1]). reflexivity.
Defined.

(** C6: a row that is not the first of its pass.  With [y] the sign of the
    label, [xc = x . coef] and [xd = x . dir]: at an even iteration
    [sigma(-y xc) * y * x] is added to [gradNew] and [dTHd] stays; at an odd
    iteration [sigma(xc) * sigma(-xc) * xd^2] is subtracted from [dTHd] and
    [gradNew] stays; in both cases [ln(1 + exp(-y xc))] is subtracted from
    the log-likelihood and the number of rows grows by one. *)
Theorem transition_later_row (s : State) (label : bool) (x : vec)
    (previous : option State) :
  (0 < numRows s)%N ->
  let y := label_sign label in
  let xc := dot x (coef s) in
  let xd := dot x (dir s) in
  let s' := transition s label x previous in
  numRows s' = (numRows s + 1)%N /\
  logLikelihood s' = logLikelihood s - ln (1 + exp (- y * xc)) /\
  ((iteration s mod 2 = 0)%N ->
     gradNew s' = vadd (gradNew s) (scal (sigma (- y * xc) * y) x) /\
     dTHd s' = dTHd s) /\
  ((iteration s mod 2 = 1)%N ->
     dTHd s' = dTHd s - sigma xc * sigma (- xc) * (xd * xd) /\
     gradNew s' = gradNew s).
Proof.
  intros Hrows y xc xd s'.
  assert (Hfirst : first_row s x previous = s).
  { unfold first_row.
    destruct (numRows s =? 0)%N eqn:E; [| reflexivity].
    apply N.eqb_eq in E. lia. }
  subst s'. unfold transition. rewrite Hfirst.
  unfold accumulate. cbn [numRows logLikelihood gradNew dTHd].
  fold y xc xd.
  destruct (iteration s mod 2 =? 0)%N eqn:E.
  - apply N.eqb_eq in E.
    split; [reflexivity |]. split; [reflexivity |].
    split; [intros _; split; reflexivity |].
    intros Hodd. rewrite Hodd in E. discriminate E.
  - apply N.eqb_neq in E.
    split; [reflexivity |]. split; [reflexivity |].
    split; [intros Heven; contradiction |].
    intros _. split; [ring | reflexivity].
Qed.

Lemma transition_later_row_witness :
  let y := label_sign false in
  let xc := dot [5] (coef cg_odd) in
  let xd := dot [5] (dir cg_odd) in
  let s' := transition cg_odd false [5] None in
  numRows s' = (numRows cg_odd + 1)%N /\
  logLikelihood s' = logLikelihood cg_odd - ln (1 + exp (- y * xc)) /\
  ((iteration cg_odd mod 2 = 0)%N ->
     gradNew s' = vadd (gradNew cg_odd) (scal (sigma (- y * xc) * y) [5]) /\
     dTHd s' = dTHd cg_odd) /\
  ((iteration cg_odd mod 2 = 1)%N ->
     dTHd s' = dTHd cg_odd - sigma xc * sigma (- xc) * (xd * xd) /\
     gradNew s' = gradNew cg_odd).
Proof.
  apply (transition_later_row cg_odd false [5] None). reflexivity.
Defined.

End CGFacts.

(** * Element-wise addition *)

Section ZipWith.

Context {A : Type} (f : A -> A -> A).
Hypothesis f_comm : forall a b, f a b = f b a.
Hypothesis f_assoc : forall a b c, f (f a b) c = f a (f b c).

Lemma zip_with_comm (u v : list A) : zip_with f u v = zip_with f v u.
Proof.
  revert v. induction u as [| a u IH]; intros [| b v]; simpl; trivial.
  now rewrite f_comm, IH.
Qed.

Lemma zip_with_assoc (u v w : list A) :
  zip_with f (zip_with f u v) w = zip_with f u (zip_with f v w).
Proof.
  revert v w.
  induction u as [| a u IH]; intros [| b v] [| c w]; simpl; trivial.
  now rewrite f_assoc, IH.
Qed.

End ZipWith.

Lemma vadd_comm (u v : vec) : vadd u v = vadd v u.
Proof. apply zip_with_comm, Rplus_comm. Qed.

Lemma vadd_assoc (u v w : vec) : vadd (vadd u v) w = vadd u (vadd v w).
Proof. apply zip_with_assoc, Rplus_assoc. Qed.

Lemma madd_comm (P Q : mat) : madd P Q = madd Q P.
Proof. apply zip_with_comm, vadd_comm. Qed.

Lemma madd_assoc (P Q S : mat) : madd (madd P Q) S = madd P (madd Q S).
Proof. apply zip_with_assoc, vadd_assoc. Qed.

(** * Properties of merging *)

Module MergeFacts.
Import Samples.

(** What [operator+=] does once its test has passed. *)
Lemma cg_plus_assign_ok (a b : CG.State) :
  CG.mStorage_size a = CG.mStorage_size b ->
  CG.widthOfX a = CG.widthOfX b ->
  CG.plus_assign a b =
    Ok (CG.mkState (CG.mStorage_size a) (CG.iteration a) (CG.widthOfX a)
          (CG.coef a) (CG.dir a) (CG.grad a) (CG.beta a)
          (CG.numRows a + CG.numRows b)
          (vadd (CG.gradNew a) (CG.gradNew b))
          (CG.dTHd a + CG.dTHd b)
          (CG.logLikelihood a + CG.logLikelihood b)).
Proof.
  intros Hsize Hwidth. unfold CG.plus_assign.
  rewrite Hsize, Hwidth, !N.eqb_refl. reflexivity.
Qed.

Lemma irls_plus_assign_ok (a b : IRLS.State) :
  IRLS.mStorage_size a = IRLS.mStorage_size b ->
  IRLS.widthOfX a = IRLS.widthOfX b ->
  IRLS.plus_assign a b =
    Ok (IRLS.mkState (IRLS.mStorage_size a) (IRLS.widthOfX a) (IRLS.coef a)
          (IRLS.numRows a + IRLS.numRows b)
          (vadd (IRLS.X_transp_Az a) (IRLS.X_transp_Az b))
          (madd (IRLS.X_transp_AX a) (IRLS.X_transp_AX b))
          (IRLS.logLikelihood a + IRLS.logLikelihood b)).
Proof.
  intros Hsize Hwidth. unfold IRLS.plus_assign.
  rewrite Hsize, Hwidth, !N.eqb_refl. reflexivity.
Qed.

(** C5: in both variants, merging two states that have both seen rows and
    whose widths or storage sizes differ throws the logic error of
    [operator+=]. *)
Theorem merge_incompatible :
  (forall l r : CG.State,
     (0 < CG.numRows l)%N -> (0 < CG.numRows r)%N ->
     CG.widthOfX l <> CG.widthOfX r \/
     CG.mStorage_size l <> CG.mStorage_size r ->
     CG.mergeStates l r = Throw incompatible) /\
  (forall l r : IRLS.State,
     (0 < IRLS.numRows l)%N -> (0 < IRLS.numRows r)%N ->
     IRLS.widthOfX l <> IRLS.widthOfX r \/
     IRLS.mStorage_size l <> IRLS.mStorage_size r ->
     IRLS.mergeStates l r = Throw incompatible).
Proof.
  split; intros l r Hl Hr Hdiff.
  - unfold CG.mergeStates, CG.plus_assign.
    apply N.lt_neq, not_eq_sym, N.eqb_neq in Hl, Hr. rewrite Hl, Hr.
    destruct Hdiff as [Hw | Hs].
    + apply N.eqb_neq in Hw. rewrite Hw, orb_true_r. reflexivity.
    + apply N.eqb_neq in Hs. rewrite Hs. reflexivity.
  - unfold IRLS.mergeStates, IRLS.plus_assign.
    apply N.lt_neq, not_eq_sym, N.eqb_neq in Hl, Hr. rewrite Hl, Hr.
    destruct Hdiff as [Hw | Hs].
    + apply N.eqb_neq in Hw. rewrite Hw, orb_true_r. reflexivity.
    + apply N.eqb_neq in Hs. rewrite Hs. reflexivity.
Qed.

Lemma merge_incompatible_witness :
  CG.mergeStates cg_rows_a cg_rows_wide = Throw incompatible /\
  IRLS.mergeStates irls_rows_a irls_rows_wide = Throw incompatible.
Proof.
  destruct merge_incompatible as [Hcg Hirls].
  split.
  - apply Hcg; [reflexivity | reflexivity | left; discriminate].
  - apply Hirls; [reflexivity | reflexivity | right; discriminate].
Defined.

(** A sum of row counts is zero only if the left count is. *)
Lemma add_eqb_0 (n m : N) : (n =? 0)%N = false -> (n + m =? 0)%N = false.
Proof.
  intros H. apply N.eqb_neq in H. apply N.eqb_neq. lia.
Qed.

(** Case analysis on the tests [numRows == 0] of [mergeStates]. *)
Ltac by_rows :=
  repeat (cbn; rewrite ?N.eqb_refl;
          match goal with
          | E : (?n =? 0)%N = _ |- context [(?n =? 0)%N] => rewrite E
          | |- context [(_ + _ =? 0)%N] =>
              rewrite (add_eqb_0 _ _) by assumption
          | |- context [(?n =? 0)%N] =>
              let E := fresh "E" in destruct (n =? 0)%N eqn:E
          end).

Lemma cg_merge_assoc (a b c : CG.State) :
  CGInv.same_iteration a b -> CGInv.same_iteration b c ->
  (ab <- CG.mergeStates a b ;; CG.mergeStates ab c) =
  (bc <- CG.mergeStates b c ;; CG.mergeStates a bc).
Proof.
  destruct a, b, c. unfold CGInv.same_iteration. cbn.
  intros (-> & -> & -> & -> & -> & -> & ->) (-> & -> & -> & -> & -> & -> & ->).
  unfold CG.mergeStates, CG.plus_assign. cbn.
  by_rows; cbn; rewrite ?N.eqb_refl; cbn; try reflexivity.
  now rewrite N.add_assoc, vadd_assoc, !Rplus_assoc.
Qed.

Lemma cg_merge_comm (a b : CG.State) :
  CGInv.same_iteration a b ->
  (CG.numRows a = 0%N -> CG.numRows b = 0%N -> a = b) ->
  CG.mergeStates a b = CG.mergeStates b a.
Proof.
  destruct a, b. unfold CGInv.same_iteration. cbn.
  intros (-> & -> & -> & -> & -> & -> & ->) Hsame.
  unfold CG.mergeStates, CG.plus_assign. cbn.
  by_rows; cbn; rewrite ?N.eqb_refl; cbn; try reflexivity.
  - apply N.eqb_eq in E, E0. now rewrite Hsame.
  - f_equal. f_equal; [apply N.add_comm | apply vadd_comm | ring | ring].
Qed.

Lemma irls_merge_assoc (a b c : IRLS.State) :
  IRLSInv.same_iteration a b -> IRLSInv.same_iteration b c ->
  (ab <- IRLS.mergeStates a b ;; IRLS.mergeStates ab c) =
  (bc <- IRLS.mergeStates b c ;; IRLS.mergeStates a bc).
Proof.
  destruct a, b, c. unfold IRLSInv.same_iteration. cbn.
  intros (-> & -> & ->) (-> & -> & ->).
  unfold IRLS.mergeStates, IRLS.plus_assign. cbn.
  by_rows; cbn; rewrite ?N.eqb_refl; cbn; try reflexivity.
  now rewrite N.add_assoc, vadd_assoc, madd_assoc, !Rplus_assoc.
Qed.

Lemma irls_merge_comm (a b : IRLS.State) :
  IRLSInv.same_iteration a b ->
  (IRLS.numRows a = 0%N -> IRLS.numRows b = 0%N -> a = b) ->
  IRLS.mergeStates a b = IRLS.mergeStates b a.
Proof.
  destruct a, b. unfold IRLSInv.same_iteration. cbn.
  intros (-> & -> & ->) Hsame.
  unfold IRLS.mergeStates, IRLS.plus_assign. cbn.
  by_rows; cbn; rewrite ?N.eqb_refl; cbn; try reflexivity.
  - apply N.eqb_eq in E, E0. now rewrite Hsame.
  - f_equal. f_equal;
      [apply N.add_comm | apply vadd_comm | apply madd_comm | ring].
Qed.

(** Two states of one iteration that have seen no row and hold zeros are the
    same state. *)
Lemma cg_empty_equal (a b : CG.State) :
  CGInv.same_iteration a b ->
  CGInv.empty_without_rows a -> CGInv.empty_without_rows b ->
  CG.numRows a = 0%N -> CG.numRows b = 0%N -> a = b.
Proof.
  destruct a, b. unfold CGInv.same_iteration, CGInv.empty_without_rows. cbn.
  intros (-> & -> & -> & -> & -> & -> & ->) Ha Hb -> ->.
  destruct (Ha eq_refl) as (-> & -> & ->).
  destruct (Hb eq_refl) as (-> & -> & ->).
  reflexivity.
Qed.

Lemma irls_empty_equal (a b : IRLS.State) :
  IRLSInv.same_iteration a b ->
  IRLSInv.empty_without_rows a -> IRLSInv.empty_without_rows b ->
  IRLS.numRows a = 0%N -> IRLS.numRows b = 0%N -> a = b.
Proof.
  destruct a, b.
  unfold IRLSInv.same_iteration, IRLSInv.empty_without_rows. cbn.
  intros (-> & -> & ->) Ha Hb -> ->.
  destruct (Ha eq_refl) as (-> & -> & ->).
  destruct (Hb eq_refl) as (-> & -> & ->).
  reflexivity.
Qed.


Lemma cg_transition_empty (s : CG.State) (label : bool) (x : vec)
    (previous : option CG.State) :
  CGInv.empty_without_rows (CG.transition s label x previous).
Proof.
  intros H. unfold CG.transition, CG.accumulate in H. cbn in H. lia.
Qed.

Lemma cg_merge_empty (a b ab : CG.State) :
  CGInv.empty_without_rows a -> CGInv.empty_without_rows b ->
  CG.mergeStates a b = Ok ab -> CGInv.empty_without_rows ab.
Proof.
  intros Ha Hb. unfold CG.mergeStates.
  destruct (CG.numRows a =? 0)%N eqn:Ea; [now intros [= <-] |].
  destruct (CG.numRows b =? 0)%N eqn:Eb; [now intros [= <-] |].
  unfold CG.plus_assign.
  destruct (_ || _); [discriminate |].
  intros [= <-] H. cbn in H. apply N.eqb_neq in Ea. lia.
Qed.


Lemma irls_transition_empty (s : IRLS.State) (label : bool) (x : vec)
    (previous : option IRLS.State) :
  IRLSInv.empty_without_rows (IRLS.transition s label x previous).
Proof.
  intros H. unfold IRLS.transition, IRLS.accumulate in H. cbn in H. lia.
Qed.

Lemma irls_merge_empty (a b ab : IRLS.State) :
  IRLSInv.empty_without_rows a -> IRLSInv.empty_without_rows b ->
  IRLS.mergeStates a b = Ok ab -> IRLSInv.empty_without_rows ab.
Proof.
  intros Ha Hb. unfold IRLS.mergeStates.
  destruct (IRLS.numRows a =? 0)%N eqn:Ea; [now intros [= <-] |].
  destruct (IRLS.numRows b =? 0)%N eqn:Eb; [now intros [= <-] |].
  unfold IRLS.plus_assign.
  destruct (_ || _); [discriminate |].
  intros [= <-] H. cbn in H. apply N.eqb_neq in Ea. lia.
Qed.

Lemma cg_merge_well_formed (a b ab : CG.State) :
  CGInv.well_formed a -> CGInv.well_formed b ->
  CG.mergeStates a b = Ok ab -> CGInv.well_formed ab.
Proof.
  intros Ha Hb. unfold CG.mergeStates.
  destruct (CG.numRows a =? 0)%N; [now intros [= <-] |].
  destruct (CG.numRows b =? 0)%N; [now intros [= <-] |].
  unfold CG.plus_assign.
  destruct (negb (_ =? _)%N) eqn:Esize; [discriminate |].
  destruct (negb (CG.widthOfX a =? _)%N) eqn:Ewidth; [discriminate |].
  apply negb_false_iff, N.eqb_eq in Ewidth.
  intros [= <-].
  destruct Ha as (Hsize & Hcoef & Hdir & Hgrad & Hnew).
  destruct Hb as (_ & _ & _ & _ & Hnew').
  unfold CGInv.well_formed. cbn.
  repeat split; try assumption.
  apply vadd_length; [assumption |]. now rewrite Ewidth.
Qed.



(** C4: over the reals and in both variants, for states of one iteration
    (same width, same storage size, same inter-iteration fields) that hold
    zeros where no row was seen, merging is associative and commutative; and
    for two operands that have seen rows the merge is the left operand with
    the intra-iteration fields of the right one added field by field. *)
Theorem merge_assoc_comm :
  (forall a b c : CG.State,
     CGInv.same_iteration a b -> CGInv.same_iteration b c ->
     CGInv.empty_without_rows a -> CGInv.empty_without_rows b ->
     CGInv.empty_without_rows c ->
     (ab <- CG.mergeStates a b ;; CG.mergeStates ab c) =
     (bc <- CG.mergeStates b c ;; CG.mergeStates a bc) /\
     CG.mergeStates a b = CG.mergeStates b a /\
     ((0 < CG.numRows a)%N -> (0 < CG.numRows b)%N ->
        CG.mergeStates a b =
          Ok (CG.mkState (CG.mStorage_size a) (CG.iteration a)
                (CG.widthOfX a) (CG.coef a) (CG.dir a) (CG.grad a) (CG.beta a)
                (CG.numRows a + CG.numRows b)
                (vadd (CG.gradNew a) (CG.gradNew b))
                (CG.dTHd a + CG.dTHd b)
                (CG.logLikelihood a + CG.logLikelihood b)))) /\
  (forall a b c : IRLS.State,
     IRLSInv.same_iteration a b -> IRLSInv.same_iteration b c ->
     IRLSInv.empty_without_rows a -> IRLSInv.empty_without_rows b ->
     IRLSInv.empty_without_rows c ->
     (ab <- IRLS.mergeStates a b ;; IRLS.mergeStates ab c) =
     (bc <- IRLS.mergeStates b c ;; IRLS.mergeStates a bc) /\
     IRLS.mergeStates a b = IRLS.mergeStates b a /\
     ((0 < IRLS.numRows a)%N -> (0 < IRLS.numRows b)%N ->
        IRLS.mergeStates a b =
          Ok (IRLS.mkState (IRLS.mStorage_size a) (IRLS.widthOfX a)
                (IRLS.coef a)
                (IRLS.numRows a + IRLS.numRows b)
                (vadd (IRLS.X_transp_Az a) (IRLS.X_transp_Az b))
                (madd (IRLS.X_transp_AX a) (IRLS.X_transp_AX b))
                (IRLS.logLikelihood a + IRLS.logLikelihood b)))).
Proof.
  split; intros a b c Hab Hbc Ea Eb Ec.
  - split; [now apply cg_merge_assoc |].
    split; [apply cg_merge_comm; [exact Hab | now apply cg_empty_equal] |].
    intros Ha Hb. unfold CG.mergeStates.
    apply N.lt_neq, not_eq_sym, N.eqb_neq in Ha, Hb. rewrite Ha, Hb.
    destruct Hab as (Hsize & Hwidth & _).
    now apply cg_plus_assign_ok.
  - split; [now apply irls_merge_assoc |].
    split; [apply irls_merge_comm; [exact Hab | now apply irls_empty_equal] |].
    intros Ha Hb. unfold IRLS.mergeStates.
    apply N.lt_neq, not_eq_sym, N.eqb_neq in Ha, Hb. rewrite Ha, Hb.
    destruct Hab as (Hsize & Hwidth & _).
    now apply irls_plus_assign_ok.
Qed.

Lemma merge_assoc_comm_witness :
  ((ab <- CG.mergeStates cg_rows_a cg_rows_b ;; CG.mergeStates ab cg_rows_c) =
   (bc <- CG.mergeStates cg_rows_b cg_rows_c ;; CG.mergeStates cg_rows_a bc) /\
   CG.mergeStates cg_rows_a cg_rows_b = CG.mergeStates cg_rows_b cg_rows_a /\
   CG.mergeStates cg_rows_a cg_rows_b =
     Ok (CG.mkState 10 0 1 [0] [0] [0] 0 (2 + 3) (vadd [1] [2]) (0 + 0)
           (-1 + -2))) /\
  ((ab <- IRLS.mergeStates irls_rows_a irls_rows_b ;;
      IRLS.mergeStates ab irls_rows_c) =
   (bc <- IRLS.mergeStates irls_rows_b irls_rows_c ;;
      IRLS.mergeStates irls_rows_a bc) /\
   IRLS.mergeStates irls_rows_a irls_rows_b
     = IRLS.mergeStates irls_rows_b irls_rows_a /\
   IRLS.mergeStates irls_rows_a irls_rows_b =
     Ok (IRLS.mkState 6 1 [0] (2 + 3) (vadd [1] [2]) (madd [[1]] [[2]])
           (-1 + -2))).
Proof.
  destruct merge_assoc_comm as [Hcg Hirls].
  split.
  - destruct (Hcg cg_rows_a cg_rows_b cg_rows_c) as (Hassoc & Hcomm & Hsum);
      [repeat split | repeat split | discriminate | discriminate
       | discriminate |].
    split; [exact Hassoc |].
    split; [exact Hcomm | apply Hsum; reflexivity].
  - destruct (Hirls irls_rows_a irls_rows_b irls_rows_c)
      as (Hassoc & Hcomm & Hsum);
      [repeat split | repeat split | discriminate | discriminate
       | discriminate |].
    split; [exact Hassoc |].
    split; [exact Hcomm | apply Hsum; reflexivity].
Defined.

End MergeFacts.

(** * Properties of the iteratively-reweighted-least-squares aggregate *)

Module IRLSFacts.
Import IRLS Samples.

(** [scalar_pinv] meets the Penrose equations on 1 x 1 matrices. *)
Lemma scalar_pinv_penrose (a : R) :
  a * / a * a = a /\ / a * a * / a = / a.
Proof.
  destruct (Req_dec a 0) as [-> | Ha].
  - rewrite Rinv_0. split; ring.
  - split; field; exact Ha.
Qed.

Lemma zero_matrix_singular : singular [[0]].
Proof.
  exists [1]. split; [reflexivity |]. split.
  - constructor. lra.
  - change (zeros (N.of_nat (List.length [[0]]))) with [0].
    cbn. f_equal. ring.
Qed.

(** For the singular cross matrix [(0)] the final step returns the state
    with the coefficient [pinv(0) * 1 = 0]. *)
Lemma final_singular_returns :
  singular (X_transp_AX irls_singular) /\
  final scalar_pinv irls_singular
    = Ok (mkState 6 1 [0] 2 [1] [[0]] (-1)) /\
  ~ exists e, final scalar_pinv irls_singular = Throw e.
Proof.
  assert (H : final scalar_pinv irls_singular
              = Ok (mkState 6 1 [0] 2 [1] [[0]] (-1))).
  { cbn. rewrite Rinv_0. do 3 f_equal. ring. }
  split; [exact zero_matrix_singular |].
  split; [exact H |].
  intros [e He]. rewrite H in He. discriminate He.
Qed.

(** The final step tests neither the matrix nor the result: whenever [pinv]
    returns a matrix it returns the state with the coefficients
    [pinv(X_transp_AX) * X_transp_Az], whatever the two fields hold, and all
    other fields as they were; when [pinv] throws, the exception is what the
    final step yields. *)
Lemma final_pinv (pinv : mat -> result mat) (s : State) :
  (forall P, pinv (X_transp_AX s) = Ok P ->
     final pinv s =
       Ok (mkState (mStorage_size s) (widthOfX s)
             (mat_vec P (X_transp_Az s))
             (numRows s) (X_transp_Az s) (X_transp_AX s)
             (logLikelihood s))) /\
  (forall e, pinv (X_transp_AX s) = Throw e -> final pinv s = Throw e).
Proof.
  unfold final. split.
  - intros P HP. rewrite HP. reflexivity.
  - intros e He. rewrite He. reflexivity.
Qed.

Lemma final_pinv_witness :
  final scalar_pinv irls_rows_b
    = Ok (mkState 6 1 (mat_vec [[/ 2]] [2]) 3 [2] [[2]] (-2)) /\
  final scalar_pinv irls_rows_wide
    = Throw (runtime_error "pinv(): not a 1 x 1 matrix").
Proof.
  split.
  - apply (proj1 (final_pinv scalar_pinv irls_rows_b)). reflexivity.
  - apply (proj2 (final_pinv scalar_pinv irls_rows_wide)). reflexivity.
Defined.

End IRLSFacts.


(** * More on the Student-t distribution function *)

Module StudentMore.
Import Student Documented.

(** The two ways through the loop test. *)
Lemma for_j_continue (bound : Z) (body : Z -> R * R -> R * R) (j : Z)
    (st : R * R) :
  (j <= bound)%Z ->
  for_j bound body j st = for_j bound body (j + 2)%Z (body j st).
Proof.
  intros Hle. rewrite for_j_equation_1.
  destruct (Z_le_dec j bound); [reflexivity | lia].
Qed.

Lemma for_j_exit (bound : Z) (body : Z -> R * R -> R * R) (j : Z)
    (st : R * R) :
  (bound < j)%Z -> for_j bound body j st = st.
Proof.
  intros Hlt. rewrite for_j_equation_1.
  destruct (Z_le_dec j bound); [lia | reflexivity].
Qed.

(** An invariant of the loop: if the body takes [P k] at [j = 2 (k + 1)] to
    [P (k + 1)], the loop entered at [j = 2 (k + 1)] with [P k] and bound
    [2 (k + n)] or [2 (k + n) + 1] leaves with [P (k + n)]. *)
Lemma for_j_invariant (body : Z -> R * R -> R * R) (P : nat -> R * R) :
  (forall k, body (2 * Z.of_nat (S k))%Z (P k) = P (S k)) ->
  forall (n k : nat) (bound : Z),
    (2 * Z.of_nat (k + n) <= bound < 2 * Z.of_nat (k + n) + 2)%Z ->
    for_j bound body (2 * Z.of_nat (S k))%Z (P k) = P (k + n)%nat.
Proof.
  intros Hbody n.
  induction n as [| n IH]; intros k bound Hbound.
  - rewrite for_j_exit by lia. now rewrite Nat.add_0_r.
  - rewrite for_j_continue by lia. rewrite Hbody.
    replace (2 * Z.of_nat (S k) + 2)%Z with (2 * Z.of_nat (S (S k)))%Z by lia.
    rewrite IH by lia. f_equal. lia.
Qed.

Lemma even_body_step (z : R) (k : nat) :
  even_body z (2 * Z.of_nat (S k))%Z
    (even_term z k, sum_f_R0 (even_term z) k)
  = (even_term z (S k), sum_f_R0 (even_term z) (S k)).
Proof.
  assert (Hterm : even_term z k * IZR (2 * Z.of_nat (S k) - 1)
                    / (IZR (2 * Z.of_nat (S k)) * z) = even_term z (S k)).
  { unfold even_term. cbn [odds evens pow].
    rewrite minus_IZR, !mult_IZR, <- INR_IZR_INZ.
    unfold Rdiv. rewrite !Rinv_mult. ring. }
  unfold even_body. cbn [fst snd]. rewrite Hterm. reflexivity.
Qed.

Lemma odd_body_step (z : R) (k : nat) :
  odd_body z (2 * Z.of_nat (S k))%Z
    (odd_term z k, sum_f_R0 (odd_term z) k)
  = (odd_term z (S k), sum_f_R0 (odd_term z) (S k)).
Proof.
  assert (Hterm : odd_term z k * IZR (2 * Z.of_nat (S k))
                    / (IZR (2 * Z.of_nat (S k) + 1) * z) = odd_term z (S k)).
  { unfold odd_term. cbn [odds_from_3 evens pow].
    rewrite plus_IZR, !mult_IZR, <- INR_IZR_INZ.
    unfold Rdiv. rewrite !Rinv_mult. ring. }
  unfold odd_body. cbn [fst snd]. rewrite Hterm. reflexivity.
Qed.

Lemma first_terms (z : R) :
  (1, 1) = (even_term z 0, sum_f_R0 (even_term z) 0) /\
  (1, 1) = (odd_term z 0, sum_f_R0 (odd_term z) 0).
Proof.
  unfold even_term, odd_term. cbn.
  replace (1 / (1 * 1)) with 1 by field. split; reflexivity.
Qed.

(** The loop for even [nu] computes the sum of the header comment. *)
Lemma even_loop (z : R) (nu : Z) :
  (2 <= nu)%Z -> Z.odd nu = false ->
  snd (for_j (nu - 2) (even_body z) 2 (1, 1))
  = sum_f_R0 (even_term z) (Z.to_nat ((nu - 2) / 2)).
Proof.
  intros Hnu Heven.
  rewrite (proj1 (first_terms z)).
  assert (Hq : exists q, nu = (2 * q)%Z).
  { apply Z.even_spec. rewrite <- Z.negb_odd, Heven. reflexivity. }
  destruct Hq as [q ->].
  set (m := Z.to_nat ((2 * q - 2) / 2)).
  assert (Hm : (2 * q - 2 = 2 * Z.of_nat m)%Z).
  { subst m. replace (2 * q - 2)%Z with ((q - 1) * 2)%Z by lia.
    rewrite Z.div_mul by lia. lia. }
  pose proof (for_j_invariant (even_body z)
                (fun k => (even_term z k, sum_f_R0 (even_term z) k))
                (even_body_step z) m 0 (2 * q - 2)) as Hloop.
  cbn [Nat.add] in Hloop. change (2 * Z.of_nat 1)%Z with 2%Z in Hloop.
  rewrite Hloop by lia. reflexivity.
Qed.

(** The loop for odd [nu > 1] computes the sum of the header comment. *)
Lemma odd_loop (z : R) (nu : Z) :
  (3 <= nu)%Z -> Z.odd nu = true ->
  snd (for_j (nu - 3) (odd_body z) 2 (1, 1))
  = sum_f_R0 (odd_term z) (Z.to_nat ((nu - 3) / 2)).
Proof.
  intros Hnu Hodd.
  rewrite (proj2 (first_terms z)).
  apply Z.odd_spec in Hodd. destruct Hodd as [q ->].
  set (m := Z.to_nat ((2 * q + 1 - 3) / 2)).
  assert (Hm : (2 * q + 1 - 3 = 2 * Z.of_nat m)%Z).
  { subst m. replace (2 * q + 1 - 3)%Z with ((q - 1) * 2)%Z by lia.
    rewrite Z.div_mul by lia. lia. }
  pose proof (for_j_invariant (odd_body z)
                (fun k => (odd_term z k, sum_f_R0 (odd_term z) k))
                (odd_body_step z) m 0 (2 * q + 1 - 3)) as Hloop.
  cbn [Nat.add] in Hloop. change (2 * Z.of_nat 1)%Z with 2%Z in Hloop.
  rewrite Hloop by lia. reflexivity.
Qed.

Lemma land_1_odd (nu : Z) :
  (0 <= nu)%Z -> negb (Z.land nu 1 =? 0)%Z = Z.odd nu.
Proof.
  intros Hnu. destruct nu as [| p | p]; [reflexivity | | lia].
  destruct p; reflexivity.
Qed.

Lemma Rabs_square (t : R) : Rabs t * Rabs t = t * t.
Proof.
  unfold Rabs. destruct (Rcase_abs t); ring.
Qed.

Lemma z_positive (nu : Z) (t : R) : (1 <= nu)%Z -> 1 <= 1 + t * t / IZR nu.
Proof.
  intros Hnu.
  assert (Hpos : 0 < IZR nu) by (apply IZR_lt; lia).
  assert (Hsq : 0 <= t * t) by nra.
  assert (Hq : 0 <= t * t / IZR nu).
  { unfold Rdiv. apply Rmult_le_pos; [exact Hsq |].
    apply Rlt_le, Rinv_0_lt_compat, Hpos. }
  lra.
Qed.

(** X1: for every [nu >= 2] the value that the main case of [studentT_cdf]
    computes before clamping is [A(|t| | nu)] as the header comment of the
    function defines it: the loops compute the documented sums. *)
Theorem series_A_documented (nu : Z) (t : R) :
  (2 <= nu)%Z -> series_A nu t = A nu (Rabs t).
Proof.
  intros Hnu. unfold series_A, A. cbv zeta.
  rewrite Rabs_square.
  assert (Hnot1 : (nu =? 1)%Z = false) by (apply Z.eqb_neq; lia).
  rewrite Hnot1, land_1_odd by lia.
  set (z := 1 + t * t / IZR nu).
  destruct (Z.odd nu) eqn:Hodd; cbn [negb].
  - assert (Hnu3 : (3 <= nu)%Z).
    { destruct (Z.eq_dec nu 2) as [-> | Hne]; [discriminate Hodd | lia]. }
    rewrite odd_loop by assumption.
    f_equal. f_equal. f_equal.
    unfold Rdiv. rewrite Rinv_mult. ring.
  - rewrite even_loop by assumption.
    f_equal.
    assert (Hz : 1 <= z) by (apply z_positive; lia).
    rewrite sqrt_mult by (try lra; apply IZR_le; lia).
    unfold Rdiv. rewrite Rinv_mult. ring.
Qed.

Lemma series_A_documented_witness : series_A 6 (-3) = A 6 (Rabs (-3)).
Proof.
  apply (series_A_documented 6 (-3)). lia.
Defined.

Lemma clamp_id (a : R) : 0 <= a <= 1 -> clamp a = a.
Proof.
  intros Ha. unfold clamp.
  destruct (Rlt_dec 1 a); [lra |].
  destruct (Rlt_dec a 0); lra.
Qed.

Lemma atan_nonneg (x : R) : 0 <= x -> 0 <= atan x.
Proof.
  intros [Hx | <-].
  - rewrite <- atan_0. apply Rlt_le, atan_increasing, Hx.
  - rewrite atan_0. lra.
Qed.

(** X2: with one degree of freedom the function is the distribution function
    of the Cauchy distribution, [1/2 + atan(t) / PI], for every [t]; the
    clamp does not change [A]. *)
Theorem studentT_cdf_cauchy (erf : R -> R) (t : R) :
  studentT_cdf erf 1 t = Num (1 / 2 + atan t / PI).
Proof.
  unfold studentT_cdf.
  change (1 <=? 0)%Z with false. change (1 >=? 1000000)%Z with false.
  change (1 >=? 200)%Z with false. cbv iota zeta.
  assert (HA : series_A 1 t = 2 / PI * atan (Rabs t)).
  { unfold series_A. change (1 =? 1)%Z with true. cbv iota zeta.
    rewrite sqrt_1. replace (Rabs t / 1) with (Rabs t) by field.
    reflexivity. }
  pose proof PI_RGT_0 as Hpi.
  assert (Hrange : 0 <= 2 / PI * atan (Rabs t) <= 1).
  { pose proof (atan_nonneg (Rabs t) (Rabs_pos t)) as Hlow.
    destruct (atan_bound (Rabs t)) as [_ Hhigh].
    split.
    - apply Rmult_le_pos; [| exact Hlow].
      apply Rlt_le, Rdiv_lt_0_compat; lra.
    - apply Rmult_le_reg_l with (PI / 2); [lra |].
      replace (PI / 2 * (2 / PI * atan (Rabs t))) with (atan (Rabs t))
        by (field; lra).
      lra. }
  rewrite HA, clamp_id by exact Hrange.
  destruct (Rlt_dec t 0) as [Hneg | Hpos]; f_equal.
  - rewrite Rabs_left by exact Hneg. rewrite atan_opp.
    replace (2 / PI * - atan t) with (- (2 * (atan t / PI))) by (field; lra).
    lra.
  - rewrite Rabs_right by lra.
    replace (2 / PI * atan t) with (2 * (atan t / PI)) by (field; lra).
    lra.
Qed.

(** X3: over the reals, with two degrees of freedom the function is
    [1/2 + t / (2 sqrt(2 + t^2))], the distribution function of Student's t
    for [nu = 2], for every real [t]. *)
Theorem studentT_cdf_two (erf : R -> R) (t : R) :
  studentT_cdf erf 2 t = Num (1 / 2 + t / (2 * sqrt (2 + t * t))).
Proof.
  unfold studentT_cdf.
  change (2 <=? 0)%Z with false. change (2 >=? 1000000)%Z with false.
  change (2 >=? 200)%Z with false. cbv iota zeta.
  assert (Hroot : 0 < sqrt (2 + t * t)) by (apply sqrt_lt_R0; nra).
  assert (HA : series_A 2 t = Rabs t / sqrt (2 + t * t)).
  { unfold series_A. change (2 =? 1)%Z with false.
    change (negb (Z.land 2 1 =? 0)%Z) with false. cbv iota zeta.
    change (2 - 2)%Z with 0%Z. rewrite for_j_exit by lia. cbn [snd].
    replace (2 + t * t) with (2 * (1 + t * t / 2)) by field.
    rewrite sqrt_mult by (try lra; apply (z_positive 2 t) || nra).
    unfold Rdiv. rewrite Rinv_mult. ring. }
  assert (Hrange : 0 <= Rabs t / sqrt (2 + t * t) <= 1).
  { pose proof (Rabs_pos t) as Habs. split.
    - apply Rmult_le_pos; [exact Habs |].
      apply Rlt_le, Rinv_0_lt_compat, Hroot.
    - apply Rmult_le_reg_r with (sqrt (2 + t * t)); [exact Hroot |].
      unfold Rdiv. rewrite Rmult_assoc, Rinv_l, Rmult_1_r, Rmult_1_l by lra.
      rewrite <- (sqrt_Rsqr_abs t).
      apply sqrt_le_1_alt. unfold Rsqr. lra. }
  rewrite HA, clamp_id by exact Hrange.
  destruct (Rlt_dec t 0) as [Hneg | Hpos]; f_equal.
  - rewrite Rabs_left by exact Hneg.
    replace (t / (2 * sqrt (2 + t * t)))
      with (- ((- t / sqrt (2 + t * t)) / 2)) by (field; lra).
    lra.
  - rewrite Rabs_right by lra.
    replace (t / (2 * sqrt (2 + t * t)))
      with ((t / sqrt (2 + t * t)) / 2) by (field; lra).
    lra.
Qed.

(** X4: at [t = 0] the function returns 1/2 for every [nu >= 1], in all three
    regimes (the error function vanishing at 0). *)
Theorem studentT_cdf_at_0 (erf : R -> R) (nu : Z) :
  erf 0 = 0 -> (1 <= nu)%Z -> studentT_cdf erf nu 0 = Num (1 / 2).
Proof.
  intros Herf Hnu.
  assert (Hpos : (nu <=? 0)%Z = false) by (apply Z.leb_gt; lia).
  assert (Hnormal : normal_cdf erf 0 = 1 / 2).
  { unfold normal_cdf.
    replace (0 / sqrt 2) with 0 by (unfold Rdiv; ring).
    rewrite Herf. lra. }
  unfold studentT_cdf. rewrite Hpos.
  destruct (nu >=? 1000000)%Z; [now rewrite Hnormal |].
  destruct (nu >=? 200)%Z.
  - unfold studentT_cdf_approx. cbv zeta.
    destruct (Rlt_dec 0 0) as [Habs | _]; [lra |].
    replace (1 + 0 * 0 / IZR nu) with 1 by (unfold Rdiv; ring).
    rewrite ln_1.
    replace (0 / _) with 0 by (unfold Rdiv; ring).
    now rewrite sqrt_0, Hnormal.
  - cbv zeta. rewrite StudentFacts.series_A_0, StudentFacts.clamp_0.
    destruct (Rlt_dec 0 0) as [Habs | _]; [lra |].
    f_equal. lra.
Qed.

Lemma studentT_cdf_at_0_witness :
  studentT_cdf Samples.erf_like 250 0 = Num (1 / 2).
Proof.
  apply (studentT_cdf_at_0 Samples.erf_like 250); [| lia].
  unfold Samples.erf_like, Rdiv. ring.
Defined.

(** X5: in the main case, [1 <= nu < 200], the result lies on the side of
    1/2 that the sign of [t] tells: at most 1/2 for [t < 0], at least 1/2
    otherwise - whatever the series gave, by the clamp. *)
Theorem studentT_cdf_side (erf : R -> R) (nu : Z) (t : R) :
  (1 <= nu < 200)%Z ->
  exists p, studentT_cdf erf nu t = Num p /\
            (t < 0 -> 0 <= p <= 1 / 2) /\
            (0 <= t -> 1 / 2 <= p <= 1).
Proof.
  intros Hnu.
  assert (H0 : (nu <=? 0)%Z = false) by (apply Z.leb_gt; lia).
  assert (H1 : (nu >=? 1000000)%Z = false)
    by (rewrite Z.geb_leb; apply Z.leb_gt; lia).
  assert (H2 : (nu >=? 200)%Z = false)
    by (rewrite Z.geb_leb; apply Z.leb_gt; lia).
  unfold studentT_cdf. rewrite H0, H1, H2. cbv zeta.
  pose proof (StudentFacts.clamp_range (series_A nu t)) as HA.
  destruct (Rlt_dec t 0) as [Hneg | Hpos];
    eexists; (split; [reflexivity |]); split; intros; lra.
Qed.

Lemma studentT_cdf_side_witness :
  exists p, studentT_cdf Samples.erf_like 7 (-1) = Num p /\
            (-1 < 0 -> 0 <= p <= 1 / 2) /\
            (0 <= -1 -> 1 / 2 <= p <= 1).
Proof.
  apply (studentT_cdf_side Samples.erf_like 7 (-1)). lia.
Defined.

Lemma approx_root_monotone (nu : Z) (t1 t2 : R) :
  (200 <= nu)%Z -> t1 * t1 <= t2 * t2 ->
  let g := (IZR nu - 1.5) / IZR ((nu - 1) * (nu - 1)) in
  sqrt (ln (1 + t1 * t1 / IZR nu) / g) <= sqrt (ln (1 + t2 * t2 / IZR nu) / g).
Proof.
  intros Hnu Hsq g.
  assert (Hpos : 0 < IZR nu) by (apply IZR_lt; lia).
  assert (Hg : 0 < / g).
  { apply Rinv_0_lt_compat. unfold g. apply Rdiv_lt_0_compat.
    - assert (200 <= IZR nu) by (apply IZR_le; lia). lra.
    - apply IZR_lt. nia. }
  assert (H1 : 1 <= 1 + t1 * t1 / IZR nu) by (apply z_positive; lia).
  assert (Hq : t1 * t1 / IZR nu <= t2 * t2 / IZR nu).
  { unfold Rdiv. apply Rmult_le_compat_r; [| exact Hsq].
    apply Rlt_le, Rinv_0_lt_compat, Hpos. }
  assert (Hln : ln (1 + t1 * t1 / IZR nu) <= ln (1 + t2 * t2 / IZR nu)).
  { destruct Hq as [Hlt | Heq]; [| rewrite Heq; apply Rle_refl].
    apply Rlt_le, ln_increasing; lra. }
  apply sqrt_le_1_alt. unfold Rdiv.
  apply Rmult_le_compat_r; [lra | exact Hln].
Qed.

(** X6: for [nu >= 200], in both approximation regimes, the result does not
    decrease when [t] grows (the error function being non-decreasing). *)
Theorem studentT_cdf_monotone_large (erf : R -> R) (nu : Z) (t1 t2 : R) :
  (forall x y, x <= y -> erf x <= erf y) ->
  (200 <= nu)%Z -> t1 <= t2 ->
  exists p1 p2,
    studentT_cdf erf nu t1 = Num p1 /\ studentT_cdf erf nu t2 = Num p2 /\
    p1 <= p2.
Proof.
  intros Herf Hnu Ht.
  assert (Hnormal : forall z1 z2,
            z1 <= z2 -> normal_cdf erf z1 <= normal_cdf erf z2).
  { intros z1 z2 Hz. unfold normal_cdf.
    assert (Hroot : 0 < / sqrt 2)
      by (apply Rinv_0_lt_compat, sqrt_lt_R0; lra).
    assert (Harg : z1 / sqrt 2 <= z2 / sqrt 2)
      by (unfold Rdiv; apply Rmult_le_compat_r; lra).
    specialize (Herf _ _ Harg). lra. }
  assert (H0 : (nu <=? 0)%Z = false) by (apply Z.leb_gt; lia).
  assert (H2 : (nu >=? 200)%Z = true) by (rewrite Z.geb_leb; apply Z.leb_le; lia).
  unfold studentT_cdf. rewrite H0, H2.
  destruct (nu >=? 1000000)%Z.
  { do 2 eexists. split; [reflexivity |]. split; [reflexivity |].
    now apply Hnormal. }
  do 2 eexists. split; [reflexivity |]. split; [reflexivity |].
  unfold studentT_cdf_approx. cbv zeta. apply Hnormal.
  pose proof (sqrt_pos
    (ln (1 + t1 * t1 / IZR nu)
     / ((IZR nu - 1.5) / IZR ((nu - 1) * (nu - 1))))) as Hr1.
  pose proof (sqrt_pos
    (ln (1 + t2 * t2 / IZR nu)
     / ((IZR nu - 1.5) / IZR ((nu - 1) * (nu - 1))))) as Hr2.
  destruct (Rlt_dec t1 0) as [Hn1 | Hp1];
    destruct (Rlt_dec t2 0) as [Hn2 | Hp2].
  - pose proof (approx_root_monotone nu t2 t1 Hnu ltac:(nra)) as Hm.
    cbv zeta in Hm. lra.
  - lra.
  - lra.
  - pose proof (approx_root_monotone nu t1 t2 Hnu ltac:(nra)) as Hm.
    cbv zeta in Hm. lra.
Qed.

Lemma erf_like_monotone (x y : R) :
  x <= y -> Samples.erf_like x <= Samples.erf_like y.
Proof.
  intros Hxy. unfold Samples.erf_like.
  assert (Hx : 0 < 1 + Rabs x) by (pose proof (Rabs_pos x); lra).
  assert (Hy : 0 < 1 + Rabs y) by (pose proof (Rabs_pos y); lra).
  apply Rmult_le_reg_r with ((1 + Rabs x) * (1 + Rabs y));
    [apply Rmult_lt_0_compat; assumption |].
  replace (x / (1 + Rabs x) * ((1 + Rabs x) * (1 + Rabs y)))
    with (x * (1 + Rabs y)) by (field; lra).
  replace (y / (1 + Rabs y) * ((1 + Rabs x) * (1 + Rabs y)))
    with (y * (1 + Rabs x)) by (field; lra).
  unfold Rabs. destruct (Rcase_abs x), (Rcase_abs y); nra.
Qed.

Lemma studentT_cdf_monotone_large_witness :
  exists p1 p2,
    studentT_cdf Samples.erf_like 300 (-1) = Num p1 /\
    studentT_cdf Samples.erf_like 300 2 = Num p2 /\
    p1 <= p2.
Proof.
  apply (studentT_cdf_monotone_large Samples.erf_like 300 (-1) 2).
  - exact erf_like_monotone.
  - lia.
  - lra.
Defined.

End StudentMore.

(** * More on the two aggregates *)

Module LogisticMore.

(** ** The logistic function *)

Lemma weight_positive (u : R) : 0 < sigma u * sigma (- u).
Proof.
  assert (Hpos : forall v, 0 < sigma v).
  { intros v. unfold sigma. pose proof (exp_pos (- v)).
    apply Rdiv_lt_0_compat; lra. }
  apply Rmult_lt_0_compat; apply Hpos.
Qed.

(** X7: over the reals, the logistic function takes values strictly between
    0 and 1 and satisfies [sigma(-x) = 1 - sigma(x)], the identity that the
    comments in both transition functions note; the weight
    [sigma(x) * sigma(-x)] of a row is then positive and at most 1/4. *)
Theorem sigma_complement (x : R) :
  0 < sigma x < 1 /\
  sigma (- x) = 1 - sigma x /\
  0 < sigma x * sigma (- x) <= 1 / 4.
Proof.
  assert (Hrange : forall u, 0 < sigma u < 1).
  { intros u. unfold sigma.
    pose proof (exp_pos (- u)) as He.
    split.
    - apply Rdiv_lt_0_compat; lra.
    - apply Rmult_lt_reg_r with (1 + exp (- u)); [lra |].
      unfold Rdiv. rewrite Rmult_assoc, Rinv_l by lra. lra. }
  assert (Hopp : sigma (- x) = 1 - sigma x).
  { unfold sigma. rewrite Ropp_involutive, exp_Ropp.
    pose proof (exp_pos x) as He. field. lra. }
  split; [apply Hrange |]. split; [exact Hopp |].
  rewrite Hopp. destruct (Hrange x) as [Hlow Hhigh].
  pose proof (Rle_0_sqr (sigma x - 1 / 2)) as Hsq. unfold Rsqr in Hsq.
  split; nra.
Qed.

Lemma log_term_positive (u : R) : 0 < ln (1 + exp u).
Proof.
  rewrite <- ln_1. apply ln_increasing; [lra |].
  pose proof (exp_pos u). lra.
Qed.

(** ** Zeros are neutral for the element-wise sum *)

Lemma vadd_zeros_l (n : N) (v : vec) :
  List.length v = N.to_nat n -> vadd (zeros n) v = v.
Proof.
  unfold zeros, vadd. generalize (N.to_nat n) as k. intros k.
  revert k. induction v as [| a v IH]; intros [| k]; simpl; try discriminate;
    trivial.
  intros [= Hlen]. now rewrite IH, Rplus_0_l.
Qed.

Lemma vadd_zeros_r (n : N) (v : vec) :
  List.length v = N.to_nat n -> vadd v (zeros n) = v.
Proof.
  intros Hlen. rewrite vadd_comm. now apply vadd_zeros_l.
Qed.

Lemma zip_with_zeros_l (n : N) (v : vec) :
  fold_right Rplus 0 (zip_with Rmult v (zeros n)) = 0.
Proof.
  unfold zeros. generalize (N.to_nat n) as k. intros k. revert k.
  induction v as [| a v IH]; intros [| k]; simpl; trivial.
  rewrite IH. ring.
Qed.

(** The product of a row with the zero coefficients is zero. *)
Lemma dot_zeros (n : N) (x : vec) : dot x (zeros n) = 0.
Proof. apply zip_with_zeros_l. Qed.

(** ** Conjugate-gradient method *)

Section CGScan.
Import CG.

Variable previous : option State.

Lemma transition_with_rows (s : State) (label : bool) (x : vec) :
  numRows s <> 0%N ->
  transition s label x previous = accumulate s (label_sign label) x.
Proof.
  intros Hrows. unfold transition, first_row.
  apply N.eqb_neq in Hrows. now rewrite Hrows.
Qed.

(** The state that the first row of a pass starts from. *)
Lemma first_row_start (n : N) (z : State) (x : vec) :
  numRows z = 0%N -> cg_seed_for n previous ->
  List.length x = N.to_nat n ->
  first_row z x previous
  = match previous with Some p => reset p | None => initialize n end.
Proof.
  intros Hz Hseed Hx. unfold first_row. rewrite Hz. cbn.
  destruct previous as [p |]; [reflexivity |].
  cbn in Hseed. rewrite Hx, N2Nat.id, N.mod_small by exact Hseed.
  reflexivity.
Qed.

Lemma start_shape (n : N) :
  cg_seed_for n previous ->
  let r0 := match previous with Some p => reset p | None => initialize n end in
  CGInv.well_formed r0 /\ widthOfX r0 = n /\ numRows r0 = 0%N /\
  gradNew r0 = zeros n /\ dTHd r0 = 0 /\ logLikelihood r0 = 0.
Proof.
  intros Hseed. destruct previous as [p |]; cbn in Hseed |- *.
  - destruct Hseed as [Hwf <-].
    split; [now apply CGFacts.reset_well_formed |]. repeat split.
  - split; [apply CGFacts.initialize_well_formed |]. repeat split.
Qed.

Lemma accumulate_same_iteration (s : State) (y : R) (x : vec) :
  CGInv.same_iteration s (accumulate s y x).
Proof. repeat split. Qed.

Lemma same_iteration_trans (a b c : State) :
  CGInv.same_iteration a b -> CGInv.same_iteration b c ->
  CGInv.same_iteration a c.
Proof.
  unfold CGInv.same_iteration.
  intros (? & ? & ? & ? & ? & ? & ?) (? & ? & ? & ? & ? & ? & ?).
  repeat split; congruence.
Qed.

Lemma same_iteration_sym (a b : State) :
  CGInv.same_iteration a b -> CGInv.same_iteration b a.
Proof.
  unfold CGInv.same_iteration.
  intros (? & ? & ? & ? & ? & ? & ?). repeat split; congruence.
Qed.

(** What a pass keeps, from a state that has seen rows: the inter-iteration
    fields, the shape, a positive number of rows. *)
Lemma scan_keeps (n : N) (rows : list (bool * vec)) :
  Scan.rows_of_width n rows ->
  forall s,
    numRows s <> 0%N -> CGInv.well_formed s -> widthOfX s = n ->
    let s' := Scan.cg previous rows s in
    CGInv.same_iteration s s' /\ CGInv.well_formed s' /\
    numRows s' = (numRows s + N.of_nat (List.length rows))%N.
Proof.
  induction 1 as [| [label x] rows Hx _ IH]; intros s Hrows Hwf Hwidth.
  - cbn. split; [repeat split |]. split; [exact Hwf | lia].
  - cbn [Scan.cg fold_left fst snd] in *.
    rewrite transition_with_rows by exact Hrows.
    destruct (IH (accumulate s (label_sign label) x)) as (Hsame & Hwf' & Hn).
    + cbn. lia.
    + apply CGFacts.accumulate_well_formed; [exact Hwf |].
      now rewrite Hwidth.
    + exact Hwidth.
    + split.
      * eapply same_iteration_trans; [apply accumulate_same_iteration |].
        exact Hsame.
      * split; [exact Hwf' |].
        fold (Scan.cg previous rows (accumulate s (label_sign label) x)).
        rewrite Hn. cbn [numRows accumulate List.length]. lia.
Qed.

(** Adding a row on the right of [operator+=] is adding it after. *)
Lemma plus_assign_accumulate (a b : State) (y : R) (x : vec) :
  CGInv.same_iteration a b ->
  exists ab,
    plus_assign a b = Ok ab /\
    CGInv.same_iteration a ab /\
    numRows ab = (numRows a + numRows b)%N /\
    plus_assign a (accumulate b y x) = Ok (accumulate ab y x).
Proof.
  intros Hsame.
  destruct Hsame as (Hsize & Hwidth & Hiter & Hcoef & Hdir & Hgrad & Hbeta).
  eexists. split; [now apply MergeFacts.cg_plus_assign_ok |].
  split; [repeat split |]. split; [reflexivity |].
  rewrite MergeFacts.cg_plus_assign_ok by assumption.
  unfold accumulate. cbn. rewrite <- Hiter, <- Hcoef, <- Hdir.
  destruct (iteration a mod 2 =? 0)%N; f_equal; f_equal;
    try ring; try lia; try apply eq_sym, vadd_assoc.
Qed.

(** Merging a state with rows and the pass of a second state with rows. *)
Lemma merge_scan (rows : list (bool * vec)) :
  forall a b ab : State,
    CGInv.same_iteration a b ->
    numRows a <> 0%N -> numRows b <> 0%N ->
    plus_assign a b = Ok ab ->
    mergeStates a (Scan.cg previous rows b) = Ok (Scan.cg previous rows ab).
Proof.
  induction rows as [| [label x] rows IH]; intros a b ab Hsame Ha Hb Hab.
  - cbn. unfold mergeStates.
    apply N.eqb_neq in Ha, Hb. now rewrite Ha, Hb.
  - cbn [Scan.cg fold_left fst snd].
    destruct (plus_assign_accumulate a b (label_sign label) x Hsame)
      as (ab' & Hab' & Hsame' & Hn & Hstep).
    rewrite Hab in Hab'. injection Hab' as <-.
    rewrite transition_with_rows by exact Hb.
    rewrite (transition_with_rows ab) by (rewrite Hn; lia).
    apply IH.
    + eapply same_iteration_trans; [exact Hsame |].
      apply accumulate_same_iteration.
    + exact Ha.
    + cbn. lia.
    + exact Hstep.
Qed.

(** The first row of the second segment, merged into a state with rows. *)
Lemma absorb_first_row (n : N) (a : State) (label : bool) (x : vec) :
  cg_seed_for n previous ->
  let r0 := match previous with Some p => reset p | None => initialize n end in
  CGInv.same_iteration r0 a -> CGInv.well_formed a ->
  List.length x = N.to_nat n ->
  plus_assign a (accumulate r0 (label_sign label) x)
  = Ok (accumulate a (label_sign label) x).
Proof.
  intros Hseed r0 Hsame Hwf Hx.
  destruct (start_shape n Hseed) as (_ & Hn & Hrows & Hg & Hd & Hl).
  fold r0 in Hn, Hrows, Hg, Hd, Hl.
  destruct (plus_assign_accumulate a r0 (label_sign label) x
              (same_iteration_sym _ _ Hsame))
    as (ab & Hab & _ & _ & Hstep).
  rewrite Hstep. f_equal. f_equal.
  rewrite MergeFacts.cg_plus_assign_ok in Hab
    by (destruct Hsame as (? & ? & _); congruence).
  injection Hab as <-.
  destruct Hwf as (_ & _ & _ & _ & Hnew).
  destruct Hsame as (_ & Hwidth & _).
  rewrite Hrows, Hg, Hd, Hl.
  rewrite vadd_zeros_r by (rewrite Hnew; congruence).
  destruct a; cbn. f_equal; try ring; lia.
Qed.

(** A pass over at least one row does not depend on the state it is started
    with, as long as that state has seen no row. *)
Lemma scan_from_any (n : N) (rows : list (bool * vec)) (z1 z2 : State) :
  numRows z1 = 0%N -> numRows z2 = 0%N ->
  cg_seed_for n previous -> Scan.rows_of_width n rows -> rows <> [] ->
  Scan.cg previous rows z1 = Scan.cg previous rows z2.
Proof.
  intros Hz1 Hz2 Hseed Hrows Hne.
  destruct rows as [| [label x] rows]; [contradiction |].
  apply Forall_cons_iff in Hrows as [Hx _]. cbn [snd] in Hx.
  cbn [Scan.cg fold_left fst snd]. unfold transition.
  now rewrite !(first_row_start n) by assumption.
Qed.

(** X8: partition invariance.  Two segments of one pass - same previous
    state, rows of one width, at least one row in all - scanned from states
    without rows and merged give the state that one scan over the rows of the
    first segment followed by those of the second gives. *)
Theorem cg_partition_invariance (n : N) (z1 z2 : State)
    (rows1 rows2 : list (bool * vec)) :
  numRows z1 = 0%N -> numRows z2 = 0%N ->
  cg_seed_for n previous ->
  Scan.rows_of_width n rows1 -> Scan.rows_of_width n rows2 ->
  rows1 ++ rows2 <> [] ->
  mergeStates (Scan.cg previous rows1 z1) (Scan.cg previous rows2 z2)
  = Ok (Scan.cg previous (rows1 ++ rows2) z1).
Proof.
  intros Hz1 Hz2 Hseed Hrows1 Hrows2 Hne.
  destruct rows1 as [| [label1 x1] rows1].
  { (* the first segment is empty *)
    cbn [app] in *. unfold mergeStates. cbn. rewrite Hz1. cbn.
    f_equal. now apply (scan_from_any n). }
  pose proof (start_shape n Hseed) as Hstart. cbv zeta in Hstart.
  destruct Hstart as (Hwf0 & Hn0 & _).
  set (r0 := match previous with Some p => reset p | None => initialize n end)
    in *.
  apply Forall_cons_iff in Hrows1 as [Hx1 Hrest1]. cbn [snd] in Hx1.
  (* the state of the first segment after its first row *)
  set (s1 := accumulate r0 (label_sign label1) x1).
  assert (Hs1 : Scan.cg previous ((label1, x1) :: rows1) z1
                = Scan.cg previous rows1 s1).
  { cbn [Scan.cg fold_left fst snd]. unfold transition.
    now rewrite (first_row_start n) by assumption. }
  assert (Hs1app : Scan.cg previous (((label1, x1) :: rows1) ++ rows2) z1
                   = Scan.cg previous rows2 (Scan.cg previous rows1 s1)).
  { unfold Scan.cg at 1. rewrite fold_left_app. fold (Scan.cg previous).
    fold (Scan.cg previous ((label1, x1) :: rows1) z1). now rewrite Hs1. }
  rewrite Hs1, Hs1app.
  destruct (scan_keeps n rows1 Hrest1 s1) as (Hsame1 & Hwf1 & Hcount1).
  { cbn. lia. }
  { apply CGFacts.accumulate_well_formed; [exact Hwf0 |]. now rewrite Hn0. }
  { exact Hn0. }
  set (a := Scan.cg previous rows1 s1) in *.
  assert (Ha : numRows a <> 0%N) by (rewrite Hcount1; cbn; lia).
  assert (Hr0a : CGInv.same_iteration r0 a).
  { eapply same_iteration_trans; [apply accumulate_same_iteration |].
    exact Hsame1. }
  destruct rows2 as [| [label2 x2] rows2].
  { (* the second segment is empty *)
    cbn. unfold mergeStates. apply N.eqb_neq in Ha. now rewrite Ha, Hz2. }
  apply Forall_cons_iff in Hrows2 as [Hx2 Hrest2]. cbn [snd] in Hx2.
  assert (Hfirst : transition z2 label2 x2 previous
                   = accumulate r0 (label_sign label2) x2).
  { unfold transition. now rewrite (first_row_start n) by assumption. }
  cbn [Scan.cg fold_left fst snd].
  rewrite Hfirst, (transition_with_rows a) by exact Ha.
  change (mergeStates a
            (Scan.cg previous rows2 (accumulate r0 (label_sign label2) x2))
          = Ok (Scan.cg previous rows2 (accumulate a (label_sign label2) x2))).
  apply merge_scan.
  - eapply same_iteration_trans; [apply same_iteration_sym, Hr0a |].
    apply accumulate_same_iteration.
  - exact Ha.
  - cbn. lia.
  - now apply (absorb_first_row n).
Qed.

End CGScan.

Lemma cg_partition_invariance_witness :
  CG.mergeStates
    (Scan.cg None Samples2.rows_a (CG.initialize 0))
    (Scan.cg None Samples2.rows_b (CG.initialize 0))
  = Ok (Scan.cg None (Samples2.rows_a ++ Samples2.rows_b) (CG.initialize 0)).
Proof.
  apply (cg_partition_invariance None 2).
  - reflexivity.
  - reflexivity.
  - reflexivity.
  - repeat constructor.
  - repeat constructor.
  - discriminate.
Defined.

(** ** Iteratively-reweighted-least-squares method *)

Lemma mzeros_shape (n : N) :
  List.length (mzeros n) = N.to_nat n /\
  Forall (fun row => List.length row = N.to_nat n) (mzeros n).
Proof.
  unfold mzeros. split; [apply repeat_length |].
  apply Forall_forall. intros row Hin.
  apply repeat_spec in Hin. subst row. apply zeros_length.
Qed.

Lemma outer_shape (x : vec) (a : R) :
  List.length (outer x a) = List.length x /\
  Forall (fun row => List.length row = List.length x) (outer x a).
Proof.
  unfold outer. split; [apply length_map |].
  apply Forall_forall. intros row Hin.
  apply in_map_iff in Hin. destruct Hin as (xi & <- & _). apply length_map.
Qed.

Lemma madd_shape (k : nat) (P Q : mat) :
  List.length P = k -> List.length Q = k ->
  Forall (fun row => List.length row = k) P ->
  Forall (fun row => List.length row = k) Q ->
  List.length (madd P Q) = k /\
  Forall (fun row => List.length row = k) (madd P Q).
Proof.
  intros HP HQ HrowsP HrowsQ. split.
  - unfold madd. rewrite zip_with_length.
    change (Nat.min (List.length P) (List.length Q) = k).
    rewrite HP, HQ. lia.
  - clear HP HQ. revert Q HrowsQ.
    induction HrowsP as [| p P Hp _ IH]; intros Q HrowsQ; [constructor |].
    destruct HrowsQ as [| q Q Hq HrowsQ]; [constructor |].
    cbn. constructor; [now apply vadd_length | now apply IH].
Qed.

Lemma madd_mzeros_r (n : N) (M : mat) :
  List.length M = N.to_nat n ->
  Forall (fun row => List.length row = N.to_nat n) M ->
  madd M (mzeros n) = M.
Proof.
  unfold mzeros, madd. generalize (N.to_nat n) at 1 3 as k.
  intros k Hlen Hrows. revert k Hlen.
  induction Hrows as [| row M Hrow _ IH]; intros [| k] Hlen;
    try discriminate; [reflexivity |].
  cbn. injection Hlen as Hlen.
  now rewrite (vadd_zeros_r n), IH.
Qed.

Section IRLSScan.
Import IRLS.

Variable previous : option State.

Lemma irls_transition_with_rows (s : State) (label : bool) (x : vec) :
  numRows s <> 0%N ->
  transition s label x previous = accumulate s (label_sign label) x.
Proof.
  intros Hrows. unfold transition, first_row.
  apply N.eqb_neq in Hrows. now rewrite Hrows.
Qed.

Lemma irls_first_row_start (n : N) (z : State) (x : vec) :
  numRows z = 0%N -> irls_seed_for n previous ->
  List.length x = N.to_nat n ->
  first_row z x previous
  = match previous with Some p => reset p | None => initialize n end.
Proof.
  intros Hz Hseed Hx. unfold first_row. rewrite Hz. cbn.
  destruct previous as [p |]; [reflexivity |].
  cbn in Hseed. rewrite Hx, N2Nat.id, N.mod_small by exact Hseed.
  reflexivity.
Qed.

Lemma irls_reset_well_formed (s : State) :
  IRLSInv2.well_formed s -> IRLSInv2.well_formed (reset s).
Proof.
  unfold IRLSInv2.well_formed, reset. cbn.
  intros (Hsize & Hcoef & _).
  destruct (mzeros_shape (widthOfX s)) as [Hlen Hrows].
  rewrite zeros_length. repeat split; assumption.
Qed.

Lemma irls_initialize_well_formed (w : N) :
  IRLSInv2.well_formed (initialize w).
Proof.
  unfold IRLSInv2.well_formed, initialize, reset. cbn.
  destruct (mzeros_shape w) as [Hlen Hrows].
  rewrite !zeros_length. repeat split; assumption.
Qed.

Lemma irls_accumulate_well_formed (s : State) (y : R) (x : vec) :
  IRLSInv2.well_formed s -> List.length x = N.to_nat (widthOfX s) ->
  IRLSInv2.well_formed (accumulate s y x).
Proof.
  unfold IRLSInv2.well_formed, accumulate. cbn.
  intros (Hsize & Hcoef & Hz & Hlen & Hrows) Hx.
  destruct (outer_shape x (sigma (dot x (coef s)) * sigma (- dot x (coef s))))
    as [Holen Horows].
  rewrite Hx in Holen, Horows.
  destruct (madd_shape _ _ _ Hlen Holen Hrows Horows) as [Hmlen Hmrows].
  repeat split; try assumption.
  apply vadd_length; [assumption |]. now rewrite length_map.
Qed.

Lemma irls_start_shape (n : N) :
  irls_seed_for n previous ->
  let r0 := match previous with Some p => reset p | None => initialize n end in
  IRLSInv2.well_formed r0 /\ widthOfX r0 = n /\ numRows r0 = 0%N /\
  X_transp_Az r0 = zeros n /\ X_transp_AX r0 = mzeros n /\
  logLikelihood r0 = 0.
Proof.
  intros Hseed. destruct previous as [p |]; cbn in Hseed |- *.
  - destruct Hseed as [Hwf <-].
    split; [now apply irls_reset_well_formed |]. repeat split.
  - split; [apply irls_initialize_well_formed |]. repeat split.
Qed.

Lemma irls_accumulate_same_iteration (s : State) (y : R) (x : vec) :
  IRLSInv.same_iteration s (accumulate s y x).
Proof. repeat split. Qed.

Lemma irls_same_iteration_trans (a b c : State) :
  IRLSInv.same_iteration a b -> IRLSInv.same_iteration b c ->
  IRLSInv.same_iteration a c.
Proof.
  unfold IRLSInv.same_iteration.
  intros (? & ? & ?) (? & ? & ?). repeat split; congruence.
Qed.

Lemma irls_same_iteration_sym (a b : State) :
  IRLSInv.same_iteration a b -> IRLSInv.same_iteration b a.
Proof.
  unfold IRLSInv.same_iteration.
  intros (? & ? & ?). repeat split; congruence.
Qed.

Lemma irls_scan_keeps (n : N) (rows : list (bool * vec)) :
  Scan.rows_of_width n rows ->
  forall s,
    numRows s <> 0%N -> IRLSInv2.well_formed s -> widthOfX s = n ->
    let s' := Scan.irls previous rows s in
    IRLSInv.same_iteration s s' /\ IRLSInv2.well_formed s' /\
    numRows s' = (numRows s + N.of_nat (List.length rows))%N.
Proof.
  induction 1 as [| [label x] rows Hx _ IH]; intros s Hrows Hwf Hwidth.
  - cbn. split; [repeat split |]. split; [exact Hwf | lia].
  - cbn [Scan.irls fold_left fst snd] in *.
    rewrite irls_transition_with_rows by exact Hrows.
    destruct (IH (accumulate s (label_sign label) x)) as (Hsame & Hwf' & Hn).
    + cbn. lia.
    + apply irls_accumulate_well_formed; [exact Hwf |].
      now rewrite Hwidth.
    + exact Hwidth.
    + split.
      * eapply irls_same_iteration_trans;
          [apply irls_accumulate_same_iteration |].
        exact Hsame.
      * split; [exact Hwf' |].
        fold (Scan.irls previous rows (accumulate s (label_sign label) x)).
        rewrite Hn. cbn [numRows accumulate List.length]. lia.
Qed.

Lemma irls_plus_assign_accumulate (a b : State) (y : R) (x : vec) :
  IRLSInv.same_iteration a b ->
  exists ab,
    plus_assign a b = Ok ab /\
    IRLSInv.same_iteration a ab /\
    numRows ab = (numRows a + numRows b)%N /\
    plus_assign a (accumulate b y x) = Ok (accumulate ab y x).
Proof.
  intros Hsame.
  destruct Hsame as (Hsize & Hwidth & Hcoef).
  eexists. split; [now apply MergeFacts.irls_plus_assign_ok |].
  split; [repeat split |]. split; [reflexivity |].
  rewrite MergeFacts.irls_plus_assign_ok by assumption.
  unfold accumulate. cbn. rewrite <- Hcoef.
  f_equal; f_equal; try ring; try lia;
    try apply eq_sym, vadd_assoc; try apply eq_sym, madd_assoc.
Qed.

Lemma irls_merge_scan (rows : list (bool * vec)) :
  forall a b ab : State,
    IRLSInv.same_iteration a b ->
    numRows a <> 0%N -> numRows b <> 0%N ->
    plus_assign a b = Ok ab ->
    mergeStates a (Scan.irls previous rows b)
    = Ok (Scan.irls previous rows ab).
Proof.
  induction rows as [| [label x] rows IH]; intros a b ab Hsame Ha Hb Hab.
  - cbn. unfold mergeStates.
    apply N.eqb_neq in Ha, Hb. now rewrite Ha, Hb.
  - cbn [Scan.irls fold_left fst snd].
    destruct (irls_plus_assign_accumulate a b (label_sign label) x Hsame)
      as (ab' & Hab' & Hsame' & Hn & Hstep).
    rewrite Hab in Hab'. injection Hab' as <-.
    rewrite irls_transition_with_rows by exact Hb.
    rewrite (irls_transition_with_rows ab) by (rewrite Hn; lia).
    apply IH.
    + eapply irls_same_iteration_trans; [exact Hsame |].
      apply irls_accumulate_same_iteration.
    + exact Ha.
    + cbn. lia.
    + exact Hstep.
Qed.

Lemma irls_absorb_first_row (n : N) (a : State) (label : bool) (x : vec) :
  irls_seed_for n previous ->
  let r0 := match previous with Some p => reset p | None => initialize n end in
  IRLSInv.same_iteration r0 a -> IRLSInv2.well_formed a ->
  List.length x = N.to_nat n ->
  plus_assign a (accumulate r0 (label_sign label) x)
  = Ok (accumulate a (label_sign label) x).
Proof.
  intros Hseed r0 Hsame Hwf Hx.
  destruct (irls_start_shape n Hseed) as (_ & Hn & Hrows & Hz & HM & Hl).
  fold r0 in Hn, Hrows, Hz, HM, Hl.
  destruct (irls_plus_assign_accumulate a r0 (label_sign label) x
              (irls_same_iteration_sym _ _ Hsame))
    as (ab & Hab & _ & _ & Hstep).
  rewrite Hstep. f_equal. f_equal.
  rewrite MergeFacts.irls_plus_assign_ok in Hab
    by (destruct Hsame as (? & ? & _); congruence).
  injection Hab as <-.
  destruct Hwf as (_ & _ & Hzlen & HMlen & HMrows).
  destruct Hsame as (_ & Hwidth & _).
  rewrite Hrows, Hz, HM, Hl.
  rewrite vadd_zeros_r by (rewrite Hzlen; congruence).
  rewrite madd_mzeros_r
    by (rewrite ?HMlen; try congruence;
        rewrite <- Hn, Hwidth; exact HMrows).
  destruct a; cbn. f_equal; try ring; lia.
Qed.

Lemma irls_scan_from_any (n : N) (rows : list (bool * vec)) (z1 z2 : State) :
  numRows z1 = 0%N -> numRows z2 = 0%N ->
  irls_seed_for n previous -> Scan.rows_of_width n rows -> rows <> [] ->
  Scan.irls previous rows z1 = Scan.irls previous rows z2.
Proof.
  intros Hz1 Hz2 Hseed Hrows Hne.
  destruct rows as [| [label x] rows]; [contradiction |].
  apply Forall_cons_iff in Hrows as [Hx _]. cbn [snd] in Hx.
  cbn [Scan.irls fold_left fst snd]. unfold transition.
  now rewrite !(irls_first_row_start n) by assumption.
Qed.

(** X9: partition invariance for the second method, as for the first. *)
Theorem irls_partition_invariance (n : N) (z1 z2 : State)
    (rows1 rows2 : list (bool * vec)) :
  numRows z1 = 0%N -> numRows z2 = 0%N ->
  irls_seed_for n previous ->
  Scan.rows_of_width n rows1 -> Scan.rows_of_width n rows2 ->
  rows1 ++ rows2 <> [] ->
  mergeStates (Scan.irls previous rows1 z1) (Scan.irls previous rows2 z2)
  = Ok (Scan.irls previous (rows1 ++ rows2) z1).
Proof.
  intros Hz1 Hz2 Hseed Hrows1 Hrows2 Hne.
  destruct rows1 as [| [label1 x1] rows1].
  { cbn [app] in *. unfold mergeStates. cbn. rewrite Hz1. cbn.
    f_equal. now apply (irls_scan_from_any n). }
  pose proof (irls_start_shape n Hseed) as Hstart. cbv zeta in Hstart.
  destruct Hstart as (Hwf0 & Hn0 & _).
  set (r0 := match previous with Some p => reset p | None => initialize n end)
    in *.
  apply Forall_cons_iff in Hrows1 as [Hx1 Hrest1]. cbn [snd] in Hx1.
  set (s1 := accumulate r0 (label_sign label1) x1).
  assert (Hs1 : Scan.irls previous ((label1, x1) :: rows1) z1
                = Scan.irls previous rows1 s1).
  { cbn [Scan.irls fold_left fst snd]. unfold transition.
    now rewrite (irls_first_row_start n) by assumption. }
  assert (Hs1app : Scan.irls previous (((label1, x1) :: rows1) ++ rows2) z1
                   = Scan.irls previous rows2 (Scan.irls previous rows1 s1)).
  { unfold Scan.irls at 1. rewrite fold_left_app. fold (Scan.irls previous).
    fold (Scan.irls previous ((label1, x1) :: rows1) z1). now rewrite Hs1. }
  rewrite Hs1, Hs1app.
  destruct (irls_scan_keeps n rows1 Hrest1 s1) as (Hsame1 & Hwf1 & Hcount1).
  { cbn. lia. }
  { apply irls_accumulate_well_formed; [exact Hwf0 |]. now rewrite Hn0. }
  { exact Hn0. }
  set (a := Scan.irls previous rows1 s1) in *.
  assert (Ha : numRows a <> 0%N) by (rewrite Hcount1; cbn; lia).
  assert (Hr0a : IRLSInv.same_iteration r0 a).
  { eapply irls_same_iteration_trans;
      [apply irls_accumulate_same_iteration |].
    exact Hsame1. }
  destruct rows2 as [| [label2 x2] rows2].
  { cbn. unfold mergeStates. apply N.eqb_neq in Ha. now rewrite Ha, Hz2. }
  apply Forall_cons_iff in Hrows2 as [Hx2 Hrest2]. cbn [snd] in Hx2.
  assert (Hfirst : transition z2 label2 x2 previous
                   = accumulate r0 (label_sign label2) x2).
  { unfold transition. now rewrite (irls_first_row_start n) by assumption. }
  cbn [Scan.irls fold_left fst snd].
  rewrite Hfirst, (irls_transition_with_rows a) by exact Ha.
  change (mergeStates a
            (Scan.irls previous rows2 (accumulate r0 (label_sign label2) x2))
          = Ok (Scan.irls previous rows2
                  (accumulate a (label_sign label2) x2))).
  apply irls_merge_scan.
  - eapply irls_same_iteration_trans;
      [apply irls_same_iteration_sym, Hr0a |].
    apply irls_accumulate_same_iteration.
  - exact Ha.
  - cbn. lia.
  - now apply (irls_absorb_first_row n).
Qed.

End IRLSScan.

Lemma irls_partition_invariance_witness :
  IRLS.mergeStates
    (Scan.irls None Samples2.rows_a (IRLS.initialize 0))
    (Scan.irls None Samples2.rows_b (IRLS.initialize 0))
  = Ok (Scan.irls None (Samples2.rows_a ++ Samples2.rows_b)
          (IRLS.initialize 0)).
Proof.
  apply (irls_partition_invariance None 2).
  - reflexivity.
  - reflexivity.
  - reflexivity.
  - repeat constructor.
  - repeat constructor.
  - discriminate.
Defined.

(** ** Rows, errors and signs *)

Lemma cg_scan_rows (previous : option CG.State) (rows : list (bool * vec)) :
  forall s,
    CG.numRows s <> 0%N ->
    let s' := Scan.cg previous rows s in
    CGInv.same_iteration s s' /\
    CG.numRows s' = (CG.numRows s + N.of_nat (List.length rows))%N /\
    (CG.dTHd s <= 0 -> CG.dTHd s' <= 0) /\
    (CG.logLikelihood s < 0 -> CG.logLikelihood s' < 0).
Proof.
  induction rows as [| [label x] rows IH]; intros s Hrows.
  - cbn. split; [repeat split |]. split; [lia |]. split; trivial.
  - cbn [Scan.cg fold_left fst snd] in *.
    rewrite transition_with_rows by exact Hrows.
    destruct (IH (CG.accumulate s (label_sign label) x))
      as (Hsame & Hn & Hd & Hl); [cbn; lia |].
    split; [| split; [| split]].
    + eapply same_iteration_trans; [apply accumulate_same_iteration |].
      exact Hsame.
    + fold (Scan.cg previous rows (CG.accumulate s (label_sign label) x)).
      rewrite Hn. cbn [CG.numRows CG.accumulate List.length]. lia.
    + intros Hneg. apply Hd. cbn.
      destruct (_ =? _)%N; [exact Hneg |].
      pose proof (weight_positive (dot x (CG.coef s))) as Hw.
      pose proof (Rle_0_sqr (dot x (CG.dir s))) as Hsq. unfold Rsqr in Hsq.
      nra.
    + intros Hneg. apply Hl. cbn.
      pose proof (log_term_positive
                    (- label_sign label * dot x (CG.coef s))). lra.
Qed.

Lemma irls_scan_rows (previous : option IRLS.State) (rows : list (bool * vec)) :
  forall s,
    IRLS.numRows s <> 0%N ->
    let s' := Scan.irls previous rows s in
    IRLSInv.same_iteration s s' /\
    IRLS.numRows s' = (IRLS.numRows s + N.of_nat (List.length rows))%N /\
    (IRLS.logLikelihood s < 0 -> IRLS.logLikelihood s' < 0).
Proof.
  induction rows as [| [label x] rows IH]; intros s Hrows.
  - cbn. split; [repeat split |]. split; [lia | trivial].
  - cbn [Scan.irls fold_left fst snd] in *.
    rewrite irls_transition_with_rows by exact Hrows.
    destruct (IH (IRLS.accumulate s (label_sign label) x))
      as (Hsame & Hn & Hl); [cbn; lia |].
    split; [| split].
    + eapply irls_same_iteration_trans;
        [apply irls_accumulate_same_iteration |].
      exact Hsame.
    + fold (Scan.irls previous rows (IRLS.accumulate s (label_sign label) x)).
      rewrite Hn. cbn [IRLS.numRows IRLS.accumulate List.length]. lia.
    + intros Hneg. apply Hl. cbn.
      pose proof (log_term_positive
                    (- label_sign label * dot x (IRLS.coef s))). lra.
Qed.

(** The state in which the first row of a pass is accumulated has seen no
    row and holds zeros. *)
Lemma cg_first_row_empty (z : CG.State) (x : vec)
    (previous : option CG.State) :
  CG.numRows z = 0%N ->
  let r0 := CG.first_row z x previous in
  CG.numRows r0 = 0%N /\ CG.dTHd r0 = 0 /\ CG.logLikelihood r0 = 0 /\
  match previous with
  | Some p => CGInv.same_iteration p r0
  | None => CG.iteration r0 = 0%N
  end.
Proof.
  intros Hz. unfold CG.first_row. rewrite Hz. cbn.
  destruct previous; repeat split.
Qed.

Lemma irls_first_row_empty (z : IRLS.State) (x : vec)
    (previous : option IRLS.State) :
  IRLS.numRows z = 0%N ->
  let r0 := IRLS.first_row z x previous in
  IRLS.numRows r0 = 0%N /\ IRLS.logLikelihood r0 = 0 /\
  match previous with
  | Some p => IRLSInv.same_iteration p r0
  | None => True
  end.
Proof.
  intros Hz. unfold IRLS.first_row. rewrite Hz. cbn.
  destruct previous; repeat split.
Qed.

(** X10: no row is lost or counted twice.  In both methods a pass over rows
    of one width, from a state without rows and with a previous state (if
    any) of that width, ends with the number of rows scanned, and a merge
    that returns a state returns one whose number of rows is the sum of the
    operands' numbers. *)
Theorem rows_counted_once :
  (forall previous (n : N) rows (z : CG.State),
     CG.numRows z = 0%N ->
     cg_seed_for n previous -> Scan.rows_of_width n rows ->
     CG.numRows (Scan.cg previous rows z) = N.of_nat (List.length rows)) /\
  (forall a b ab : CG.State,
     CG.mergeStates a b = Ok ab ->
     CG.numRows ab = (CG.numRows a + CG.numRows b)%N) /\
  (forall previous (n : N) rows (z : IRLS.State),
     IRLS.numRows z = 0%N ->
     irls_seed_for n previous -> Scan.rows_of_width n rows ->
     IRLS.numRows (Scan.irls previous rows z) = N.of_nat (List.length rows)) /\
  (forall a b ab : IRLS.State,
     IRLS.mergeStates a b = Ok ab ->
     IRLS.numRows ab = (IRLS.numRows a + IRLS.numRows b)%N).
Proof.
  split; [| split; [| split]].
  - intros previous n [| [label x] rows] z Hz _ _; [cbn; now rewrite Hz |].
    destruct (cg_first_row_empty z x previous Hz) as (H0 & _).
    destruct (cg_scan_rows previous rows
                (CG.accumulate (CG.first_row z x previous)
                   (label_sign label) x)) as (_ & Hn & _); [cbn; lia |].
    change (CG.numRows
              (Scan.cg previous rows
                 (CG.accumulate (CG.first_row z x previous)
                    (label_sign label) x))
            = N.of_nat (S (List.length rows))).
    rewrite Hn. cbn [CG.numRows CG.accumulate List.length]. rewrite H0. lia.
  - intros a b ab. unfold CG.mergeStates.
    destruct (CG.numRows a =? 0)%N eqn:Ea.
    { apply N.eqb_eq in Ea. intros [= <-]. lia. }
    destruct (CG.numRows b =? 0)%N eqn:Eb.
    { apply N.eqb_eq in Eb. intros [= <-]. lia. }
    unfold CG.plus_assign. destruct (_ || _); [discriminate |].
    now intros [= <-].
  - intros previous n [| [label x] rows] z Hz _ _; [cbn; now rewrite Hz |].
    destruct (irls_first_row_empty z x previous Hz) as (H0 & _).
    destruct (irls_scan_rows previous rows
                (IRLS.accumulate (IRLS.first_row z x previous)
                   (label_sign label) x)) as (_ & Hn & _); [cbn; lia |].
    change (IRLS.numRows
              (Scan.irls previous rows
                 (IRLS.accumulate (IRLS.first_row z x previous)
                    (label_sign label) x))
            = N.of_nat (S (List.length rows))).
    rewrite Hn. cbn [IRLS.numRows IRLS.accumulate List.length].
    rewrite H0. lia.
  - intros a b ab. unfold IRLS.mergeStates.
    destruct (IRLS.numRows a =? 0)%N eqn:Ea.
    { apply N.eqb_eq in Ea. intros [= <-]. lia. }
    destruct (IRLS.numRows b =? 0)%N eqn:Eb.
    { apply N.eqb_eq in Eb. intros [= <-]. lia. }
    unfold IRLS.plus_assign. destruct (_ || _); [discriminate |].
    now intros [= <-].
Qed.

Lemma rows_counted_once_witness :
  CG.numRows (Scan.cg None Samples2.rows_a (CG.initialize 0)) = 2%N /\
  (2 + 3 = CG.numRows Samples.cg_rows_a + CG.numRows Samples.cg_rows_b)%N /\
  IRLS.numRows (Scan.irls None Samples2.rows_a (IRLS.initialize 0)) = 2%N /\
  (2 + 3
   = IRLS.numRows Samples.irls_rows_a + IRLS.numRows Samples.irls_rows_b)%N.
Proof.
  destruct rows_counted_once as (Hcg & Hcgm & Hirls & Hirlsm).
  split; [| split; [| split]].
  - apply (Hcg None 2%N Samples2.rows_a (CG.initialize 0));
      [reflexivity | reflexivity | repeat constructor].
  - apply (Hcgm Samples.cg_rows_a Samples.cg_rows_b
             (CG.mkState 10 0 1 [0] [0] [0] 0 (2 + 3) (vadd [1] [2]) (0 + 0)
                (-1 + -2))).
    reflexivity.
  - apply (Hirls None 2%N Samples2.rows_a (IRLS.initialize 0));
      [reflexivity | reflexivity | repeat constructor].
  - apply (Hirlsm Samples.irls_rows_a Samples.irls_rows_b
             (IRLS.mkState 6 1 [0] (2 + 3) (vadd [1] [2]) (madd [[1]] [[2]])
                (-1 + -2))).
    reflexivity.
Defined.

(** X11: when merging throws.  In both methods [mergeStates] throws exactly if
    both operands have seen rows and their storage sizes or their widths
    differ, and then it throws the logic error of [operator+=]; in all other
    cases it returns a state. *)
Theorem merge_throws_iff :
  (forall (l r : CG.State) (e : exn),
     CG.mergeStates l r = Throw e <->
     e = incompatible /\ CG.numRows l <> 0%N /\ CG.numRows r <> 0%N /\
     (CG.mStorage_size l <> CG.mStorage_size r \/
      CG.widthOfX l <> CG.widthOfX r)) /\
  (forall (l r : IRLS.State) (e : exn),
     IRLS.mergeStates l r = Throw e <->
     e = incompatible /\ IRLS.numRows l <> 0%N /\ IRLS.numRows r <> 0%N /\
     (IRLS.mStorage_size l <> IRLS.mStorage_size r \/
      IRLS.widthOfX l <> IRLS.widthOfX r)).
Proof.
  split; intros l r e.
  - unfold CG.mergeStates, CG.plus_assign.
    destruct (CG.numRows l =? 0)%N eqn:El.
    { apply N.eqb_eq in El. split; [discriminate | tauto]. }
    destruct (CG.numRows r =? 0)%N eqn:Er.
    { apply N.eqb_eq in Er. split; [discriminate | tauto]. }
    apply N.eqb_neq in El, Er.
    destruct (CG.mStorage_size l =? CG.mStorage_size r)%N eqn:Es;
      destruct (CG.widthOfX l =? CG.widthOfX r)%N eqn:Ew; cbn;
      rewrite ?N.eqb_eq, ?N.eqb_neq in *;
      (split; [intros [= <-] | intros (-> & _ & _ & Hdiff)]); tauto.
  - unfold IRLS.mergeStates, IRLS.plus_assign.
    destruct (IRLS.numRows l =? 0)%N eqn:El.
    { apply N.eqb_eq in El. split; [discriminate | tauto]. }
    destruct (IRLS.numRows r =? 0)%N eqn:Er.
    { apply N.eqb_eq in Er. split; [discriminate | tauto]. }
    apply N.eqb_neq in El, Er.
    destruct (IRLS.mStorage_size l =? IRLS.mStorage_size r)%N eqn:Es;
      destruct (IRLS.widthOfX l =? IRLS.widthOfX r)%N eqn:Ew; cbn;
      rewrite ?N.eqb_eq, ?N.eqb_neq in *;
      (split; [intros [= <-] | intros (-> & _ & _ & Hdiff)]); tauto.
Qed.

(** X12: signs.  After a pass over at least one row (rows of one width, from
    a state without rows, with a previous state, if any, of that width) the
    log-likelihood is not positive in both methods, and the curvature [dTHd]
    of the first method is not positive. *)
Theorem pass_signs :
  (forall previous (n : N) rows (z : CG.State),
     CG.numRows z = 0%N ->
     cg_seed_for n previous -> Scan.rows_of_width n rows -> rows <> [] ->
     CG.logLikelihood (Scan.cg previous rows z) <= 0 /\
     CG.dTHd (Scan.cg previous rows z) <= 0) /\
  (forall previous (n : N) rows (z : IRLS.State),
     IRLS.numRows z = 0%N ->
     irls_seed_for n previous -> Scan.rows_of_width n rows -> rows <> [] ->
     IRLS.logLikelihood (Scan.irls previous rows z) <= 0).
Proof.
  split.
  - intros previous n [| [label x] rows] z Hz _ _ Hne; [contradiction |].
    cbn [Scan.cg fold_left fst snd]. unfold CG.transition.
    destruct (cg_first_row_empty z x previous Hz) as (H0 & Hd0 & Hl0 & _).
    set (r0 := CG.first_row z x previous) in *.
    destruct (cg_scan_rows previous rows
                (CG.accumulate r0 (label_sign label) x))
      as (_ & _ & Hd & Hl); [cbn; lia |].
    split.
    + apply Rlt_le, Hl. cbn. rewrite Hl0.
      pose proof (log_term_positive
                    (- label_sign label * dot x (CG.coef r0))). lra.
    + apply Hd. cbn. rewrite Hd0.
      destruct (_ =? _)%N; [lra |].
      pose proof (weight_positive (dot x (CG.coef r0))) as Hw.
      pose proof (Rle_0_sqr (dot x (CG.dir r0))) as Hsq. unfold Rsqr in Hsq.
      nra.
  - intros previous n [| [label x] rows] z Hz _ _ Hne; [contradiction |].
    cbn [Scan.irls fold_left fst snd]. unfold IRLS.transition.
    destruct (irls_first_row_empty z x previous Hz) as (H0 & Hl0 & _).
    set (r0 := IRLS.first_row z x previous) in *.
    destruct (irls_scan_rows previous rows
                (IRLS.accumulate r0 (label_sign label) x))
      as (_ & _ & Hl); [cbn; lia |].
    apply Rlt_le, Hl. cbn. rewrite Hl0.
    pose proof (log_term_positive
                  (- label_sign label * dot x (IRLS.coef r0))). lra.
Qed.

Lemma pass_signs_witness :
  (CG.logLikelihood (Scan.cg None Samples2.rows_a (CG.initialize 0)) <= 0 /\
   CG.dTHd (Scan.cg None Samples2.rows_a (CG.initialize 0)) <= 0) /\
  IRLS.logLikelihood (Scan.irls None Samples2.rows_a (IRLS.initialize 0)) <= 0.
Proof.
  destruct pass_signs as (Hcg & Hirls).
  split.
  - apply (Hcg None 2%N);
      [reflexivity | reflexivity | repeat constructor | discriminate].
  - apply (Hirls None 2%N);
      [reflexivity | reflexivity | repeat constructor | discriminate].
Defined.

(** X13: a pass never touches the inter-iteration fields.  In both methods
    the state after a pass over at least one row with a well-formed previous
    state [p], the rows having the width of [p], has the storage size, the
    width and the inter-iteration fields of [p], whatever the state the pass
    was started with held. *)
Theorem pass_keeps_previous :
  (forall (p : CG.State) (n : N) rows (z : CG.State),
     CG.numRows z = 0%N ->
     cg_seed_for n (Some p) -> Scan.rows_of_width n rows -> rows <> [] ->
     CGInv.same_iteration p (Scan.cg (Some p) rows z)) /\
  (forall (p : IRLS.State) (n : N) rows (z : IRLS.State),
     IRLS.numRows z = 0%N ->
     irls_seed_for n (Some p) -> Scan.rows_of_width n rows -> rows <> [] ->
     IRLSInv.same_iteration p (Scan.irls (Some p) rows z)).
Proof.
  split.
  - intros p n [| [label x] rows] z Hz _ _ Hne; [contradiction |].
    destruct (cg_first_row_empty z x (Some p) Hz) as (_ & _ & _ & Hsame).
    destruct (cg_scan_rows (Some p) rows
                (CG.accumulate (CG.first_row z x (Some p))
                   (label_sign label) x)) as (Hkeep & _); [cbn; lia |].
    change (CGInv.same_iteration p
              (Scan.cg (Some p) rows
                 (CG.accumulate (CG.first_row z x (Some p))
                    (label_sign label) x))).
    eapply same_iteration_trans; [exact Hsame |].
    eapply same_iteration_trans; [apply accumulate_same_iteration |].
    exact Hkeep.
  - intros p n [| [label x] rows] z Hz _ _ Hne; [contradiction |].
    destruct (irls_first_row_empty z x (Some p) Hz) as (_ & _ & Hsame).
    destruct (irls_scan_rows (Some p) rows
                (IRLS.accumulate (IRLS.first_row z x (Some p))
                   (label_sign label) x)) as (Hkeep & _); [cbn; lia |].
    change (IRLSInv.same_iteration p
              (Scan.irls (Some p) rows
                 (IRLS.accumulate (IRLS.first_row z x (Some p))
                    (label_sign label) x))).
    eapply irls_same_iteration_trans; [exact Hsame |].
    eapply irls_same_iteration_trans;
      [apply irls_accumulate_same_iteration |].
    exact Hkeep.
Qed.

Lemma pass_keeps_previous_witness :
  CGInv.same_iteration Samples.cg_odd
    (Scan.cg (Some Samples.cg_odd) Samples2.rows_c (CG.initialize 0)) /\
  IRLSInv.same_iteration Samples.irls_rows_a
    (Scan.irls (Some Samples.irls_rows_a) Samples2.rows_c
       (IRLS.initialize 0)).
Proof.
  destruct pass_keeps_previous as (Hcg & Hirls).
  split.
  - apply (Hcg Samples.cg_odd 1%N);
      [reflexivity | repeat split | repeat constructor | discriminate].
  - apply (Hirls Samples.irls_rows_a 1%N);
      [reflexivity | repeat split; repeat constructor | repeat constructor
       | discriminate].
Defined.

Lemma sigma_0 : sigma 0 = 1 / 2.
Proof.
  unfold sigma. rewrite Ropp_0, exp_0. lra.
Qed.

(** X14: the first row of a fit.  Without a previous state, the first row
    [x] (fewer than 65536 elements) of a state without rows gives, in both
    methods, a state for [length x] coefficients, all zero, that has seen one
    row, with log-likelihood [- ln 2]; the gradient of the first method and
    the vector [X^T A z] of the second are both [y/2 * x] and the matrix
    [X^T A X] is [x^T x / 4].  Nothing of the incoming state is kept.  For
    the second method the row has at most 46339 elements, the widths for
    which the [int] arithmetic of [arraySize] is exact.  Over the reals. *)
Theorem first_row_of_fit (label : bool) (x : vec) :
  (N.of_nat (List.length x) < 65536)%N ->
  let n := N.of_nat (List.length x) in
  let y := label_sign label in
  (forall z : CG.State,
     CG.numRows z = 0%N ->
     CG.transition z label x None
     = CG.mkState (6 + 4 * n) 0 n (zeros n) (zeros n) (zeros n) 0
         1 (scal (1 / 2 * y) x) 0 (- ln 2)) /\
  ((n <= 46339)%N ->
   forall z : IRLS.State,
     IRLS.numRows z = 0%N ->
     IRLS.transition z label x None
     = IRLS.mkState (3 + n * n + 2 * n) n (zeros n)
         1 (scal (1 / 2 * y) x) (outer x (1 / 4)) (- ln 2)).
Proof.
  intros Hlen n y.
  assert (Hmod : (N.of_nat (List.length x) mod 65536 = n)%N)
    by (apply N.mod_small; exact Hlen).
  assert (Hx : List.length x = N.to_nat n) by (subst n; now rewrite Nat2N.id).
  assert (Hll : 0 - ln (1 + exp (- y * 0)) = - ln 2).
  { rewrite Rmult_0_r, exp_0. replace (1 + 1) with 2 by ring. ring. }
  assert (Hs : sigma (- y * 0) = 1 / 2) by (rewrite Rmult_0_r; apply sigma_0).
  assert (Hs' : sigma (- 0) = 1 / 2) by (rewrite Ropp_0; apply sigma_0).
  split; [intros z Hz | intros _ z Hz].
  - unfold CG.transition, CG.first_row. rewrite Hz. cbn [N.eqb].
    rewrite Hmod. fold y.
    unfold CG.accumulate, CG.initialize, CG.reset, CG.arraySize.
    cbn -[zeros N.mul N.add]. rewrite !dot_zeros, Hll, Hs.
    rewrite vadd_zeros_l by now rewrite scal_length.
    reflexivity.
  - unfold IRLS.transition, IRLS.first_row. rewrite Hz. cbn [N.eqb].
    rewrite Hmod. fold y.
    unfold IRLS.accumulate, IRLS.initialize, IRLS.reset, IRLS.arraySize.
    cbn -[zeros mzeros outer N.mul N.add]. rewrite !dot_zeros, Hll, Hs, Hs'.
    rewrite sigma_0.
    destruct (outer_shape x (1 / 2 * (1 / 2))) as [Holen Horows].
    rewrite Hx in Holen, Horows.
    rewrite madd_comm, madd_mzeros_r by assumption.
    rewrite vadd_zeros_l by now rewrite length_map.
    replace (1 / 2 * (1 / 2)) with (1 / 4) by field.
    f_equal. unfold scal. apply map_ext. intros xi. field.
Qed.

Lemma first_row_of_fit_witness :
  CG.transition (CG.initialize 0) false [3; 4] None
  = CG.mkState (6 + 4 * 2) 0 2 (zeros 2) (zeros 2) (zeros 2) 0
      1 (scal (1 / 2 * label_sign false) [3; 4]) 0 (- ln 2) /\
  IRLS.transition (IRLS.initialize 0) false [3; 4] None
  = IRLS.mkState (3 + 2 * 2 + 2 * 2) 2 (zeros 2)
      1 (scal (1 / 2 * label_sign false) [3; 4]) (outer [3; 4] (1 / 4)) (- ln 2).
Proof.
  destruct (first_row_of_fit false [3; 4]) as (Hcg & Hirls); [reflexivity |].
  split.
  - apply Hcg. reflexivity.
  - apply Hirls; [discriminate | reflexivity].
Defined.

(** ** The final step of the conjugate-gradient method *)

Lemma dot_vsub_scal (b : R) (u v w : vec) :
  List.length u = List.length v ->
  dot (vsub u (scal b v)) w = dot u w - b * dot v w.
Proof.
  unfold dot, vsub, scal. revert v w.
  induction u as [| a u IH]; intros [| c v] w Hlen; try discriminate.
  - cbn. ring.
  - destruct w as [| d w]; cbn; [ring |].
    injection Hlen as Hlen. rewrite IH by exact Hlen. ring.
Qed.

(** X15: the direction chosen at an even iteration above 0 is orthogonal to
    the change of the gradient, [dir' . (gradNew - grad) = 0], whenever the
    denominator [dir . (gradNew - grad)] of [beta] is not zero. *)
Theorem final_direction_conjugate (s : CG.State) :
  CGInv.well_formed s ->
  CG.iteration s <> 0%N -> (CG.iteration s mod 2 = 0)%N ->
  let D := vsub (CG.gradNew s) (CG.grad s) in
  dot (CG.dir s) D <> 0 ->
  dot (CG.dir (CG.final s)) D = 0.
Proof.
  intros (_ & _ & Hdir & _ & Hnew) Hnot0 Heven D Hden.
  unfold CG.final.
  apply N.eqb_neq in Hnot0. apply N.eqb_eq in Heven.
  rewrite Hnot0, Heven. cbn [CG.dir]. fold D.
  rewrite dot_vsub_scal by congruence.
  field. exact Hden.
Qed.

Lemma final_direction_conjugate_witness :
  dot (CG.dir (CG.final Samples2.cg_even_wide))
    (vsub (CG.gradNew Samples2.cg_even_wide) (CG.grad Samples2.cg_even_wide))
  = 0.
Proof.
  apply (final_direction_conjugate Samples2.cg_even_wide).
  - repeat split.
  - discriminate.
  - reflexivity.
  - cbn. lra.
Defined.

(** ** Storage *)

(** X16: the layout.  The members of either state class lie in the storage
    array one after the other, the first at index 0 and the last ending
    where an array of [arraySize(widthOfX)] cells ends: every cell belongs
    to exactly one member.  This is stated for the widths at which the
    [int] arithmetic of the indices and of [arraySize] is exact: every width
    of a [uint16_t] for the first class, widths up to 46339 for the
    second. *)
Theorem members_fill_array (widthOfX : N) :
  ((widthOfX < 65536)%N ->
   Layout.consecutive 0 (Layout.cg_members widthOfX)
     (CG.arraySize widthOfX)) /\
  ((widthOfX <= 46339)%N ->
   Layout.consecutive 0 (Layout.irls_members widthOfX)
     (IRLS.arraySize widthOfX)).
Proof.
  unfold CG.arraySize, IRLS.arraySize, Layout.cg_members,
    Layout.irls_members.
  cbn [Layout.consecutive]. split; intros _; repeat split; lia.
Qed.

Lemma members_fill_array_witness :
  Layout.consecutive 0 (Layout.cg_members 3) (CG.arraySize 3) /\
  Layout.consecutive 0 (Layout.irls_members 3) (IRLS.arraySize 3).
Proof.
  destruct (members_fill_array 3) as (Hcg & Hirls).
  split; [apply Hcg | apply Hirls]; [reflexivity | discriminate].
Defined.

(** X17: the sizes as [int] values.  For a width that fits [uint16_t] the
    array of the first method has at most 262146 cells; the size of the array
    of the second method is below [2^31], the range of the [int] arithmetic
    of [arraySize], exactly for widths up to 46339. *)
Theorem arraySize_range (w : N) :
  (w < 65536)%N ->
  (CG.arraySize w <= 262146)%N /\
  ((IRLS.arraySize w < 2 ^ 31)%N <-> (w <= 46339)%N).
Proof.
  intros Hw. unfold CG.arraySize, IRLS.arraySize.
  change (2 ^ 31)%N with 2147483648%N.
  split; [lia |]. split; intros H.
  - destruct (N.le_gt_cases w 46339) as [Hle | Hgt]; [exact Hle |].
    assert (Hsq : (46340 * 46340 <= w * w)%N) by (apply N.mul_le_mono; lia).
    lia.
  - assert (Hsq : (w * w <= 46339 * 46339)%N) by (apply N.mul_le_mono; lia).
    lia.
Qed.

Lemma arraySize_range_witness :
  (CG.arraySize 46340 <= 262146)%N /\
  ((IRLS.arraySize 46340 < 2 ^ 31)%N <-> (46340 <= 46339)%N).
Proof.
  apply (arraySize_range 46340). reflexivity.
Defined.

(** ** The convergence metric and the final step of the second method *)

(** X18: in both methods [distance] is not negative, symmetric, zero on a
    state and itself, and obeys the triangle inequality; and the final step
    does not change it: the distance of two finalized states is the distance
    of the states that were finalized. *)
Theorem distance_pseudometric :
  (forall a b c : CG.State,
     0 <= CG.distance a b /\
     CG.distance a b = CG.distance b a /\
     CG.distance a a = 0 /\
     CG.distance a c <= CG.distance a b + CG.distance b c /\
     CG.distance (CG.final a) (CG.final b) = CG.distance a b) /\
  (forall a b c : IRLS.State,
     0 <= IRLS.distance a b /\
     IRLS.distance a b = IRLS.distance b a /\
     IRLS.distance a a = 0 /\
     IRLS.distance a c <= IRLS.distance a b + IRLS.distance b c /\
     forall pinv a' b',
       IRLS.final pinv a = Ok a' -> IRLS.final pinv b = Ok b' ->
       IRLS.distance a' b' = IRLS.distance a b).
Proof.
  assert (H : forall x y z : R,
            0 <= Rabs (x - y) /\ Rabs (x - y) = Rabs (y - x) /\
            Rabs (x - x) = 0 /\
            Rabs (x - z) <= Rabs (x - y) + Rabs (y - z)).
  { intros x y z. split; [apply Rabs_pos |].
    split; [apply Rabs_minus_sym |].
    split; [rewrite Rminus_diag; apply Rabs_R0 |].
    replace (x - z) with ((x - y) + (y - z)) by ring. apply Rabs_triang. }
  split; intros a b c.
  - destruct (H (CG.logLikelihood a) (CG.logLikelihood b)
                (CG.logLikelihood c)) as (H1 & H2 & H3 & H4).
    repeat split; try assumption. apply CGFacts.distance_final.
  - destruct (H (IRLS.logLikelihood a) (IRLS.logLikelihood b)
                (IRLS.logLikelihood c)) as (H1 & H2 & H3 & H4).
    do 4 (split; [assumption |]).
    intros pinv a' b'. unfold IRLS.final, bind.
    destruct (pinv (IRLS.X_transp_AX a)); [| discriminate].
    destruct (pinv (IRLS.X_transp_AX b)); [| discriminate].
    now intros [= <-] [= <-].
Qed.

Lemma distance_pseudometric_witness :
  IRLS.distance
    (IRLS.mkState 6 1 (mat_vec [[/ 1]] [1]) 2 [1] [[1]] (-1))
    (IRLS.mkState 6 1 (mat_vec [[/ 2]] [2]) 3 [2] [[2]] (-2))
  = IRLS.distance Samples.irls_rows_a Samples.irls_rows_b.
Proof.
  destruct distance_pseudometric as (_ & Hirls).
  destruct (Hirls Samples.irls_rows_a Samples.irls_rows_b Samples.irls_rows_a)
    as (_ & _ & _ & _ & Hfinal).
  apply (Hfinal Samples.scalar_pinv); reflexivity.
Defined.

(** X19: the final step of the second method is idempotent: applied to the
    state it returned it returns that state again. *)
Theorem irls_final_idempotent (pinv : mat -> result mat)
    (s s' : IRLS.State) :
  IRLS.final pinv s = Ok s' -> IRLS.final pinv s' = Ok s'.
Proof.
  unfold IRLS.final, bind.
  destruct (pinv (IRLS.X_transp_AX s)) as [P |] eqn:HP; [| discriminate].
  intros [= <-]. cbn. now rewrite HP.
Qed.

Lemma irls_final_idempotent_witness :
  IRLS.final Samples.scalar_pinv
    (IRLS.mkState 6 1 (mat_vec [[/ 2]] [2]) 3 [2] [[2]] (-2))
  = Ok (IRLS.mkState 6 1 (mat_vec [[/ 2]] [2]) 3 [2] [[2]] (-2)).
Proof.
  apply (irls_final_idempotent Samples.scalar_pinv Samples.irls_rows_b).
  reflexivity.
Defined.

(** ** The matrix of the second method *)

Section Symmetry.
Import IRLS IRLSInv2.

Lemma nth_vadd (u v : vec) (j : nat) :
  List.length u = List.length v ->
  nth j (vadd u v) 0 = nth j u 0 + nth j v 0.
Proof.
  unfold vadd. revert v j.
  induction u as [| a u IH]; intros [| b v] j Hlen; try discriminate.
  - destruct j; cbn; ring.
  - destruct j; cbn; [reflexivity |]. apply IH. now injection Hlen.
Qed.

Lemma entry_madd (k : nat) (P Q : mat) (i j : nat) :
  Forall (fun row => List.length row = k) P ->
  Forall (fun row => List.length row = k) Q ->
  List.length P = List.length Q ->
  entry (madd P Q) i j = entry P i j + entry Q i j.
Proof.
  unfold entry, madd. intros HP. revert Q i.
  induction HP as [| p P Hp _ IH]; intros [| q Q] i HQ Hlen;
    try discriminate.
  - destruct i, j; cbn; ring.
  - apply Forall_cons_iff in HQ as [Hq HQ].
    destruct i; cbn.
    + apply nth_vadd. congruence.
    + apply IH; [exact HQ | now injection Hlen].
Qed.

Lemma nth_scaled (c : R) (x : vec) (j : nat) :
  nth j (map (fun xj => c * xj) x) 0 = c * nth j x 0.
Proof.
  revert j. induction x as [| a x IH]; intros [| j]; cbn; try ring.
  apply IH.
Qed.

Lemma entry_outer_rows (inner l : vec) (a : R) (i j : nat) :
  nth j (nth i (map (fun xi => map (fun xj => xi * a * xj) inner) l) []) 0
  = nth i l 0 * a * nth j inner 0.
Proof.
  revert i. induction l as [| xi l IH]; intros [| i]; cbn.
  - destruct j; ring.
  - destruct j; ring.
  - apply nth_scaled.
  - apply IH.
Qed.

Lemma entry_outer (x : vec) (a : R) (i j : nat) :
  entry (outer x a) i j = nth i x 0 * a * nth j x 0.
Proof. apply entry_outer_rows. Qed.

Lemma entry_mzeros (n : N) (i j : nat) : entry (mzeros n) i j = 0.
Proof.
  unfold entry, mzeros. generalize (N.to_nat n) at 1 as k. intros k.
  revert i. induction k as [| k IH]; intros [| i]; cbn.
  - now destruct j.
  - now destruct j.
  - unfold zeros. apply nth_repeat.
  - apply IH.
Qed.

Lemma accumulate_symmetric (s : State) (y : R) (x : vec) :
  well_formed s -> List.length x = N.to_nat (widthOfX s) ->
  symmetric (X_transp_AX s) ->
  symmetric (X_transp_AX (accumulate s y x)).
Proof.
  intros (_ & _ & _ & Hlen & Hrows) Hx Hsym i j.
  unfold accumulate. cbn [X_transp_AX].
  set (a := sigma (dot x (coef s)) * sigma (- dot x (coef s))).
  destruct (outer_shape x a) as [Holen Horows]. rewrite Hx in Horows.
  rewrite !(entry_madd (N.to_nat (widthOfX s))) by congruence.
  rewrite Hsym, !entry_outer. ring.
Qed.

Lemma scan_symmetric (previous : option State) (n : N)
    (rows : list (bool * vec)) :
  Scan.rows_of_width n rows ->
  forall s,
    numRows s <> 0%N -> well_formed s -> widthOfX s = n ->
    symmetric (X_transp_AX s) ->
    symmetric (X_transp_AX (Scan.irls previous rows s)).
Proof.
  induction 1 as [| [label x] rows Hx _ IH]; intros s Hrows Hwf Hwidth Hsym.
  - exact Hsym.
  - cbn [Scan.irls fold_left fst snd] in *.
    rewrite irls_transition_with_rows by exact Hrows.
    apply IH.
    + cbn. lia.
    + apply irls_accumulate_well_formed; [exact Hwf | now rewrite Hwidth].
    + exact Hwidth.
    + apply accumulate_symmetric; [exact Hwf | now rewrite Hwidth | exact Hsym].
Qed.

(** X20: the matrix [X^T A X] is symmetric.  It is so after every pass over
    at least one row (rows of one width, from a state without rows, whatever
    the previous state held in its matrix), and merging two well-formed
    states with symmetric matrices gives a state with a symmetric matrix. *)
Theorem cross_matrix_symmetric :
  (forall previous (n : N) rows (z : State),
     numRows z = 0%N -> irls_seed_for n previous ->
     Scan.rows_of_width n rows -> rows <> [] ->
     symmetric (X_transp_AX (Scan.irls previous rows z))) /\
  (forall a b ab : State,
     well_formed a -> well_formed b ->
     symmetric (X_transp_AX a) -> symmetric (X_transp_AX b) ->
     mergeStates a b = Ok ab -> symmetric (X_transp_AX ab)).
Proof.
  split.
  - intros previous n [| [label x] rows] z Hz Hseed Hrows Hne;
      [contradiction |].
    apply Forall_cons_iff in Hrows as [Hx Hrest]. cbn [snd] in Hx.
    pose proof (irls_start_shape previous n Hseed) as Hstart.
    cbv zeta in Hstart.
    destruct Hstart as (Hwf0 & Hn0 & _ & _ & HM0 & _).
    cbn [Scan.irls fold_left fst snd]. unfold transition.
    rewrite (irls_first_row_start previous n) by assumption.
    set (r0 := match previous with
               | Some p => reset p
               | None => initialize n
               end) in *.
    apply (scan_symmetric previous n); [exact Hrest | | | exact Hn0 |].
    + cbn. lia.
    + apply irls_accumulate_well_formed; [exact Hwf0 | now rewrite Hn0].
    + apply accumulate_symmetric; [exact Hwf0 | now rewrite Hn0 |].
      rewrite HM0. intros i j. now rewrite !entry_mzeros.
  - intros a b ab Hwfa Hwfb Hsa Hsb. unfold mergeStates.
    destruct (numRows a =? 0)%N; [now intros [= <-] |].
    destruct (numRows b =? 0)%N; [now intros [= <-] |].
    unfold plus_assign.
    destruct (negb (_ =? _)%N); [discriminate |].
    destruct (negb (widthOfX a =? _)%N) eqn:Ew; [discriminate |].
    apply negb_false_iff, N.eqb_eq in Ew.
    intros [= <-] i j. cbn [X_transp_AX].
    destruct Hwfa as (_ & _ & _ & Hlena & Hrowsa).
    destruct Hwfb as (_ & _ & _ & Hlenb & Hrowsb).
    rewrite <- Ew in Hlenb, Hrowsb.
    rewrite !(entry_madd (N.to_nat (widthOfX a))) by congruence.
    now rewrite Hsa, Hsb.
Qed.

Lemma symmetric_1x1 (a : R) : symmetric [[a]].
Proof.
  intros [| i] [| j]; unfold entry; cbn; try reflexivity.
  - now destruct j.
  - now destruct i.
  - destruct i, j; reflexivity.
Qed.

Lemma cross_matrix_symmetric_witness :
  symmetric
    (X_transp_AX (Scan.irls None Samples2.rows_a (initialize 0))) /\
  symmetric (madd [[1]] [[2]]).
Proof.
  destruct cross_matrix_symmetric as (Hscan & Hmerge).
  split.
  - apply (Hscan None 2%N Samples2.rows_a (initialize 0)).
    + reflexivity.
    + reflexivity.
    + repeat constructor.
    + discriminate.
  - apply (Hmerge Samples.irls_rows_a Samples.irls_rows_b
             (mkState 6 1 [0] (2 + 3) (vadd [1] [2]) (madd [[1]] [[2]])
                (-1 + -2))).
    + repeat split; repeat constructor.
    + repeat split; repeat constructor.
    + apply symmetric_1x1.
    + apply symmetric_1x1.
    + reflexivity.
Defined.

End Symmetry.

(** ** The two accumulators of the conjugate-gradient method *)

Lemma cg_scan_one_accumulator (previous : option CG.State)
    (rows : list (bool * vec)) :
  forall s,
    CG.numRows s <> 0%N ->
    let s' := Scan.cg previous rows s in
    ((CG.iteration s mod 2 = 1)%N -> CG.gradNew s' = CG.gradNew s) /\
    ((CG.iteration s mod 2 = 0)%N -> CG.dTHd s' = CG.dTHd s).
Proof.
  induction rows as [| [label x] rows IH]; intros s Hrows.
  - cbn. split; reflexivity.
  - destruct (IH (CG.accumulate s (label_sign label) x)) as (Hodd & Heven);
      [cbn; lia |].
    cbn [CG.iteration CG.accumulate] in Hodd, Heven.
    change (Scan.cg previous ((label, x) :: rows) s)
      with (Scan.cg previous rows (CG.transition s label x previous)).
    rewrite transition_with_rows by exact Hrows.
    split; intros Hparity.
    + rewrite Hodd by exact Hparity. cbn. now rewrite Hparity.
    + rewrite Heven by exact Hparity. cbn. now rewrite Hparity.
Qed.

(** X21: a pass fills one of the two accumulators only.  After a pass over at
    least one row with a well-formed previous state [p], the rows having the
    width of [p], the gradient accumulator is still the zero vector if the
    iteration of [p] is odd, and the curvature [dTHd] is still zero if it is
    even. *)
Theorem pass_fills_one_accumulator (p : CG.State) (n : N)
    (rows : list (bool * vec)) (z : CG.State) :
  CG.numRows z = 0%N ->
  cg_seed_for n (Some p) -> Scan.rows_of_width n rows -> rows <> [] ->
  let s := Scan.cg (Some p) rows z in
  ((CG.iteration p mod 2 = 1)%N -> CG.gradNew s = zeros (CG.widthOfX p)) /\
  ((CG.iteration p mod 2 = 0)%N -> CG.dTHd s = 0).
Proof.
  intros Hz _ _ Hne. destruct rows as [| [label x] rows]; [contradiction |].
  intros s.
  assert (Hfirst : CG.first_row z x (Some p) = CG.reset p).
  { unfold CG.first_row. now rewrite Hz. }
  assert (Hs : s = Scan.cg (Some p) rows
                     (CG.accumulate (CG.reset p) (label_sign label) x)).
  { subst s. cbn [Scan.cg fold_left fst snd]. unfold CG.transition.
    now rewrite Hfirst. }
  destruct (cg_scan_one_accumulator (Some p) rows
              (CG.accumulate (CG.reset p) (label_sign label) x))
    as (Hodd & Heven); [cbn; lia |].
  cbn [CG.iteration CG.accumulate CG.reset] in Hodd, Heven.
  rewrite Hs. split; intros Hparity.
  - rewrite Hodd by exact Hparity. cbn. now rewrite Hparity.
  - rewrite Heven by exact Hparity. cbn. now rewrite Hparity.
Qed.

Lemma pass_fills_one_accumulator_witness :
  let s := Scan.cg (Some Samples.cg_odd) Samples2.rows_c (CG.initialize 0) in
  ((CG.iteration Samples.cg_odd mod 2 = 1)%N ->
     CG.gradNew s = zeros (CG.widthOfX Samples.cg_odd)) /\
  ((CG.iteration Samples.cg_odd mod 2 = 0)%N -> CG.dTHd s = 0).
Proof.
  apply (pass_fills_one_accumulator Samples.cg_odd 1%N Samples2.rows_c
           (CG.initialize 0));
    [reflexivity | repeat split | repeat constructor | discriminate].
Defined.

End LogisticMore.
